(** * check_translations.py: translation string checker

    A shallow embedding of [scripts/check_translations.py] and the
    properties of its comparator, filter, extractor and exporter.

    Conventions of the model.
    - A Python [str] is a Rocq [string]; a character is a code point in
      the range U+0000..U+00FF and the classes [\w] and [\s] are
      Python's on that range.
    - A Python [set] of strings is a [gset string]; a [dict] whose
      iteration order is never observed is a [gmap]; the catalog object
      that [json.dump] writes, whose key order is observable, is an
      association list updated in place.
    - The file system is an explicit [world]; a file that cannot be read
      or parsed is [None].
    - Printing to standard output is not modelled. *)

From Stdlib Require Import String Ascii ZArith List Bool Lia Permutation Sorted.
From stdpp Require Import base option gmap sets list strings sorting.

Local Open Scope string_scope.
Local Open Scope Z_scope.

(** ** Python string primitives *)

Module PyStr.

Definition dq : ascii := "034"%char.
Definition nl : ascii := "010"%char.
Definition bsl : ascii := "\"%char.
Definition sq : ascii := "'"%char.

Definition chr (c : ascii) : string := String c EmptyString.

(** [bool(s)]: a string is truthy when it is not empty. *)
Definition truthy (s : string) : bool :=
  match s with EmptyString => false | String _ _ => true end.

(** [c in s] for a one-character [c]. *)
Fixpoint contains (c : ascii) (s : string) : bool :=
  match s with
  | EmptyString => false
  | String x t => Ascii.eqb x c || contains c t
  end.

(** [s.count(c)] for a one-character [c]. *)
Fixpoint count (c : ascii) (s : string) : Z :=
  match s with
  | EmptyString => 0
  | String x t => (if Ascii.eqb x c then 1 else 0) + count c t
  end.

(** [s.rfind(c)] for a one-character [c]: the highest index, or -1. *)
Fixpoint rfind_from (i : Z) (c : ascii) (s : string) : Z :=
  match s with
  | EmptyString => -1
  | String x t =>
      let r := rfind_from (i + 1) c t in
      if 0 <=? r then r else if Ascii.eqb x c then i else -1
  end.
Definition rfind (c : ascii) (s : string) : Z := rfind_from 0 c s.

(** [s[:n]] *)
Definition take (n : nat) (s : string) : string := String.substring 0 n s.

(** [s.replace(old, new)] for a non-empty [old]: occurrences are found
    from the left and do not overlap.  [skip] counts the characters of
    an occurrence that are still to be passed over. *)
Fixpoint replace_from (skip : nat) (old new s : string) : string :=
  match s with
  | EmptyString => EmptyString
  | String x t =>
      match skip with
      | S k => replace_from k old new t
      | O =>
          if String.prefix old s
          then new ++ replace_from (Nat.pred (String.length old)) old new t
          else String x (replace_from O old new t)
      end
  end.
Definition replace (old new s : string) : string := replace_from O old new s.

End PyStr.

(** ** Python's [re]: a backtracking matcher

    The matcher explores alternatives in the order of Python's engine:
    the left branch of [|] first, greedy repetition longest first, lazy
    repetition shortest first.  It is written in continuation-passing
    style, so that a later failure backtracks into earlier choices, and
    capture groups are restored on backtracking because the state is a
    value.

    No pattern of the program and no body of a repetition in one matches
    the empty string.  An iteration that consumes nothing is refused, so
    the length of the text that is left bounds the iterations of a
    repetition and the bound is never reached. *)

Module Re.

Inductive regex : Type :=
| Eps
| Lit (c : ascii)
| Cls (p : ascii -> bool)
| Cat (r1 r2 : regex)
| Alt (r1 r2 : regex)
| Star (r : regex)               (* r*   greedy *)
| LazyStar (r : regex)           (* r*?  lazy *)
| Group (i : nat) (r : regex)    (* ( r )  capturing *)
| Backref (i : nat)              (* \i *)
| Bol                            (* ^ without MULTILINE *)
| Eol (multiline : bool)         (* $ *)
| WordB                          (* \b *)
| NotAfter (c : ascii).          (* (?<!c) *)

Definition Plus (r : regex) : regex := Cat r (Star r).
Definition Opt (r : regex) : regex := Alt r Eps.

Fixpoint lits (s : string) : regex :=
  match s with
  | EmptyString => Eps
  | String c EmptyString => Lit c
  | String c t => Cat (Lit c) (lits t)
  end.

Fixpoint seq (rs : list regex) : regex :=
  match rs with
  | [] => Eps
  | [r] => r
  | r :: rs' => Cat r (seq rs')
  end.

(** Character classes on code points below 256. *)
Definition between (lo hi : N) (c : ascii) : bool :=
  let n := N_of_ascii c in ((lo <=? n) && (n <=? hi))%N.

Definition is_word (c : ascii) : bool :=
  between 48 57 c || between 65 90 c || between 97 122 c
  || Ascii.eqb c "_"
  || between 170 170 c || between 178 179 c || between 181 181 c
  || between 185 186 c || between 188 190 c || between 192 214 c
  || between 216 246 c || between 248 255 c.

Definition is_space (c : ascii) : bool :=
  between 9 13 c || between 28 32 c || between 133 133 c
  || between 160 160 c.

Definition is_hex (c : ascii) : bool :=
  between 48 57 c || between 97 102 c || between 65 70 c.

Definition one_of (s : string) (c : ascii) : bool := PyStr.contains c s.
Definition none_of (s : string) (c : ascii) : bool := negb (PyStr.contains c s).
Definition any_char (c : ascii) : bool := true.                (* . with DOTALL *)
Definition not_newline (c : ascii) : bool := negb (Ascii.eqb c PyStr.nl).

(** The position in the subject: the offset, the character before it
    and the text from it on. *)
Record cursor : Type := Cursor { pos : nat; prev : option ascii; rest : string }.

Record mstate : Type := MState { cur : cursor; groups : list (nat * string) }.

Definition start_of (s : string) : cursor := Cursor O None s.

Definition step (c : cursor) : option (ascii * cursor) :=
  match rest c with
  | EmptyString => None
  | String x t => Some (x, Cursor (S (pos c)) (Some x) t)
  end.

Fixpoint skip_str (s : string) (c : cursor) : option cursor :=
  match s with
  | EmptyString => Some c
  | String x t =>
      match step c with
      | Some (y, c') => if Ascii.eqb x y then skip_str t c' else None
      | None => None
      end
  end.

Fixpoint group_of (i : nat) (gs : list (nat * string)) : option string :=
  match gs with
  | [] => None
  | (j, s) :: gs' => if Nat.eqb i j then Some s else group_of i gs'
  end.

Definition word_at (o : option ascii) : bool :=
  match o with Some c => is_word c | None => false end.

Definition next_char (c : cursor) : option ascii :=
  match rest c with EmptyString => None | String x _ => Some x end.

Definition at_eol (multiline : bool) (c : cursor) : bool :=
  match rest c with
  | EmptyString => true
  | String x t =>
      Ascii.eqb x PyStr.nl
      && (multiline || match t with EmptyString => true | _ => false end)
  end.

Definition orelse {A} (a b : option A) : option A :=
  match a with Some _ => a | None => b end.

Fixpoint run (r : regex) (st : mstate) (k : mstate -> option mstate)
  {struct r} : option mstate :=
  match r with
  | Eps => k st
  | Lit c =>
      match step (cur st) with
      | Some (x, c') =>
          if Ascii.eqb x c then k (MState c' (groups st)) else None
      | None => None
      end
  | Cls p =>
      match step (cur st) with
      | Some (x, c') => if p x then k (MState c' (groups st)) else None
      | None => None
      end
  | Cat r1 r2 => run r1 st (fun st1 => run r2 st1 k)
  | Alt r1 r2 => orelse (run r1 st k) (run r2 st k)
  | Star r1 =>
      (fix loop (n : nat) (st : mstate) {struct n} : option mstate :=
         match n with
         | O => k st
         | S n' =>
             orelse
               (run r1 st (fun st' =>
                  if (pos (cur st) <? pos (cur st'))%nat
                  then loop n' st' else None))
               (k st)
         end) (S (String.length (rest (cur st)))) st
  | LazyStar r1 =>
      (fix loop (n : nat) (st : mstate) {struct n} : option mstate :=
         match n with
         | O => k st
         | S n' =>
             orelse
               (k st)
               (run r1 st (fun st' =>
                  if (pos (cur st) <? pos (cur st'))%nat
                  then loop n' st' else None))
         end) (S (String.length (rest (cur st)))) st
  | Group i r1 =>
      run r1 st (fun st' =>
        let text :=
          PyStr.take (pos (cur st') - pos (cur st)) (rest (cur st)) in
        k (MState (cur st') ((i, text) :: groups st')))
  | Backref i =>
      match group_of i (groups st) with
      | Some s =>
          match skip_str s (cur st) with
          | Some c' => k (MState c' (groups st))
          | None => None
          end
      | None => None
      end
  | Bol => if (pos (cur st) =? 0)%nat then k st else None
  | Eol ml => if at_eol ml (cur st) then k st else None
  | WordB =>
      if xorb (word_at (prev (cur st))) (word_at (next_char (cur st)))
      then k st else None
  | NotAfter c =>
      match prev (cur st) with
      | Some x => if Ascii.eqb x c then None else k st
      | None => k st
      end
  end.

(** A match object: [start()], [end()] and the captured groups. *)
Record rmatch : Type :=
  RMatch { m_start : nat; m_end : nat; m_groups : list (nat * string) }.

Definition group (i : nat) (m : rmatch) : string :=
  match group_of i (m_groups m) with
  | Some s => s
  | None => EmptyString
  end.

Definition match_at (r : regex) (c : cursor) : option rmatch :=
  match run r (MState c []) Some with
  | Some st => Some (RMatch (pos c) (pos (cur st)) (groups st))
  | None => None
  end.

(** [re.match(r, s)] *)
Definition re_match (r : regex) (s : string) : option rmatch :=
  match_at r (start_of s).

(** [re.finditer(r, s)], as the list of its match objects.  [skip] is
    the number of characters of the last match that are still ahead. *)
Fixpoint finditer_from (r : regex) (skip : nat) (c : cursor) (s : string)
  : list rmatch :=
  match skip with
  | S k =>
      match s with
      | EmptyString => []
      | String x t => finditer_from r k (Cursor (S (pos c)) (Some x) t) t
      end
  | O =>
      match match_at r c, s with
      | Some m, EmptyString => [m]
      | Some m, String x t =>
          m :: finditer_from r (Nat.pred (m_end m - m_start m))
                 (Cursor (S (pos c)) (Some x) t) t
      | None, EmptyString => []
      | None, String x t =>
          finditer_from r O (Cursor (S (pos c)) (Some x) t) t
      end
  end.

Definition finditer (r : regex) (s : string) : list rmatch :=
  finditer_from r O (start_of s) s.

(** [re.search(r, s)] is the first match of [finditer]. *)
Definition search (r : regex) (s : string) : option rmatch :=
  head (finditer r s).

(** [re.sub(r, repl, s)] for a literal replacement [repl]. *)
Fixpoint sub_from (r : regex) (repl : string) (skip : nat) (c : cursor)
  (s : string) : string :=
  match skip with
  | S k =>
      match s with
      | EmptyString => EmptyString
      | String x t => sub_from r repl k (Cursor (S (pos c)) (Some x) t) t
      end
  | O =>
      match match_at r c, s with
      | Some m, EmptyString => repl
      | Some m, String x t =>
          let len := (m_end m - m_start m)%nat in
          let tail :=
            sub_from r repl (Nat.pred len) (Cursor (S (pos c)) (Some x) t) t in
          if (len =? 0)%nat then repl ++ String x tail else repl ++ tail
      | None, EmptyString => EmptyString
      | None, String x t =>
          String x (sub_from r repl O (Cursor (S (pos c)) (Some x) t) t)
      end
  end.

Definition sub (r : regex) (repl s : string) : string :=
  sub_from r repl O (start_of s) s.

End Re.

Import PyStr Re.

(** ** Module constants *)

Definition SPECIAL_KEYS : gset string := {[ ".authorMsg"; ".title" ]}.

(** The patterns of [EXCLUDE_PATTERNS], in the order of the list. *)
Definition css_class_pattern : regex :=                   (* ^\.[\w-]+$ *)
  seq [Bol; Lit "."; Plus (Cls (fun c => is_word c || Ascii.eqb c "-"));
       Eol false].
Definition css_id_pattern : regex :=                      (* ^#[\w-]+$ *)
  seq [Bol; Lit "#"; Plus (Cls (fun c => is_word c || Ascii.eqb c "-"));
       Eol false].
Definition css_compound_pattern : regex :=                (* ^[\w-]+\.[\w-]+$ *)
  seq [Bol; Plus (Cls (fun c => is_word c || Ascii.eqb c "-")); Lit ".";
       Plus (Cls (fun c => is_word c || Ascii.eqb c "-")); Eol false].
Definition svg_list_pattern : regex :=                    (* ^path,rect,circle *)
  seq [Bol; lits "path,rect,circle"].
Definition hex_escape_pattern : regex :=                  (* ^\\x[0-9a-fA-F]+$ *)
  seq [Bol; Lit bsl; Lit "x"; Plus (Cls is_hex); Eol false].

Definition EXCLUDE_PATTERNS : list regex :=
  [css_class_pattern; css_id_pattern; css_compound_pattern;
   svg_list_pattern; hex_escape_pattern].

Definition whitelist_entries : list string :=
  ["(beta)"; "30th Anniversary"; "Astro Bot"; "Chroma Indigo";
   "Chroma Pearl"; "Chroma Teal"; "Cobalt Blue"; "Cosmic Red"; "Fortnite";
   "Galactic Purple"; "God of War Ragnarok"; "Grey Camouflage";
   "Midnight Black"; "Nova Pink"; "Spider-Man 2"; "Starlight Blue";
   "Sterling Silver"; "The Last of Us"; "Volcanic Red"; "White";
   "Sony DualSense"; "Sony DualSense Edge"; "Sony DualShock 4 V1";
   "Sony DualShock 4 V2";
   "Calibration in progress"; "Continue"; "Start"; "Initializing...";
   "Sampling..."; "left module"; "right module";
   "Your device might not be a genuine Sony controller. If it is not a clone then please report this issue.";
   "Adaptive Trigger"; "Buttons"; "Haptic Vibration"; "Headphone Jack";
   "Lights"; "Microphone"; "Speaker"; "USB Connector"].

Definition WHITELIST_UNUSED : gset string := list_to_set whitelist_entries.

(** ** The filter *)

Definition should_exclude_string (text : string) : bool :=
  existsb (fun pattern => bool_decide (is_Some (re_match pattern text)))
          EXCLUDE_PATTERNS.

(** ** The extractor *)

Record location : Type := Location { file : string; line : Z; col : Z }.

(** The result of an extractor: text to the list of its occurrences. *)
Abbreviation occurrences := (gmap string (list location)).

(** [content[:start].count('\n') + 1] and
    [start - content[:start].rfind('\n')]. *)
Definition location_of (path content : string) (start : nat) : location :=
  let before := take start content in
  Location path (count nl before + 1) (Z.of_nat start - rfind nl before).

(** [if text not in strings: strings[text] = []] followed by
    [strings[text].append(loc)]. *)
Definition record_at (text : string) (loc : location) (strings : occurrences)
  : occurrences :=
  <[ text := (default [] (strings !! text) ++ [loc])%list ]> strings.

Definition simple_tag_pattern : regex :=      (* </?(?:b|i|em|strong|span)> *)
  seq [Lit "<"; Opt (Lit "/");
       Alt (lits "b") (Alt (lits "i") (Alt (lits "em")
         (Alt (lits "strong") (lits "span"))));
       Lit ">"].

(** The nested-tag check: the [continue] of the two markup rules. *)
Definition has_complex_tags (text : string) : bool :=
  contains "<" text && contains ">" text
  && contains "<" (sub simple_tag_pattern EmptyString text).

Definition html_comment_pattern : regex :=                (* <!--.*?--> DOTALL *)
  seq [lits "<!--"; LazyStar (Cls any_char); lits "-->"].
Definition line_comment_pattern : regex :=                (* //.*?$ MULTILINE *)
  seq [lits "//"; LazyStar (Cls not_newline); Eol true].
Definition block_comment_pattern : regex :=               (* /\*.*?\*/ DOTALL *)
  seq [lits "/*"; LazyStar (Cls any_char); lits "*/"].

Definition strip_js_comments (content : string) : string :=
  sub block_comment_pattern EmptyString
      (sub line_comment_pattern EmptyString content).

(** [<(\w+)[^>]*class=Q[^Q]*ds-i18n[^Q]*Q[^>]*>(.*?)</\1>] with DOTALL,
    where Q stands for the double quote. *)
Definition ds_i18n_pattern : regex :=
  seq [Lit "<"; Group 1 (Plus (Cls is_word)); Star (Cls (none_of ">"));
       lits "class="; Lit dq; Star (Cls (none_of (chr dq)));
       lits "ds-i18n"; Star (Cls (none_of (chr dq))); Lit dq;
       Star (Cls (none_of ">")); Lit ">";
       Group 2 (LazyStar (Cls any_char)); lits "</"; Backref 1; Lit ">"].

Definition quotes : string := String dq "'`".

(** The string literal shared by the two call patterns: group 1 is one
    of the three quote characters (double, single, back-tick), group 2 is
    [((?:\\.|[^\\])*?)], followed by [(?<!\\)\1]. *)
Definition string_literal : regex :=
  seq [Group 1 (Cls (one_of quotes));
       Group 2 (LazyStar (Alt (Cat (Lit bsl) (Cls any_char))
                              (Cls (none_of (chr bsl)))));
       NotAfter bsl; Backref 1].

(** [(?:this\.)?\bl\s*\(\s*] string_literal [\s*\)] with DOTALL *)
Definition l_function_pattern : regex :=
  seq [Opt (lits "this."); WordB; Lit "l"; Star (Cls is_space); Lit "(";
       Star (Cls is_space); string_literal; Star (Cls is_space); Lit ")"].

(** As [ds_i18n_pattern], with any of the three quote characters around
    the class attribute and excluded from its value; DOTALL. *)
Definition html_in_js_pattern : regex :=
  seq [Lit "<"; Group 1 (Plus (Cls is_word)); Star (Cls (none_of ">"));
       lits "class="; Cls (one_of quotes); Star (Cls (none_of quotes));
       lits "ds-i18n"; Star (Cls (none_of quotes)); Cls (one_of quotes);
       Star (Cls (none_of ">")); Lit ">";
       Group 2 (LazyStar (Cls any_char)); lits "</"; Backref 1; Lit ">"].

(** [\$\{l\s*\(\s*] string_literal [\s*\)\}] with DOTALL *)
Definition template_literal_pattern : regex :=
  seq [lits "${l"; Star (Cls is_space); Lit "("; Star (Cls is_space);
       string_literal; Star (Cls is_space); Lit ")"; Lit "}"].

(** The three [replace] calls on a captured literal, in the order of the
    source: backslash-single-quote to single quote, backslash-double-quote
    to double quote, double backslash to backslash. *)
Definition unescape (text : string) : string :=
  replace "\\" "\"
    (replace (String bsl (chr dq)) (chr dq)
       (replace "\'" "'" text)).

(** A source file: its path and its text, [None] when reading fails. *)
Abbreviation source_file := (string * option string)%type.

Definition ds_i18n_match (path content : string) (strings : occurrences)
  (m : rmatch) : occurrences :=
  let text := group 2 m in
  if has_complex_tags text then strings
  else if truthy text
       then record_at text (location_of path content (m_start m)) strings
       else strings.

Definition extract_ds_i18n_file (strings : occurrences) (f : source_file)
  : occurrences :=
  match f.2 with
  | None => strings
  | Some content =>
      let content := sub html_comment_pattern EmptyString content in
      fold_left (ds_i18n_match f.1 content)
                (finditer ds_i18n_pattern content) strings
  end.

Definition extract_ds_i18n_strings (html_files : list source_file)
  : occurrences :=
  fold_left extract_ds_i18n_file html_files ∅.

Definition l_function_match (path content : string) (strings : occurrences)
  (m : rmatch) : occurrences :=
  let text := group 2 m in
  if truthy text
  then record_at (unescape text) (location_of path content (m_start m)) strings
  else strings.

Definition extract_l_function_file (strings : occurrences) (f : source_file)
  : occurrences :=
  match f.2 with
  | None => strings
  | Some content =>
      let content := strip_js_comments content in
      fold_left (l_function_match f.1 content)
                (finditer l_function_pattern content) strings
  end.

Definition extract_l_function_strings (js_files : list source_file)
  : occurrences :=
  fold_left extract_l_function_file js_files ∅.

Definition template_match (loc : location) (strings : occurrences)
  (template_match : rmatch) : occurrences :=
  let extracted_string := group 2 template_match in
  if truthy extracted_string
  then record_at (unescape extracted_string) loc strings
  else strings.

(** The body of the loop over the tagged-element matches of one script
    file.  The position is computed in [original_content] with the offset
    of the match in the comment-stripped text, as the source does. *)
Definition html_in_js_match (path original_content : string)
  (strings : occurrences) (m : rmatch) : occurrences :=
  let text := group 2 m in
  if has_complex_tags text then strings
  else if truthy text
       then
         let loc := location_of path original_content (m_start m) in
         let strings :=
           fold_left (template_match loc)
                     (finditer template_literal_pattern text) strings in
         match search template_literal_pattern text with
         | None => record_at text loc strings
         | Some _ => strings
         end
       else strings.

Definition extract_html_strings_file (strings : occurrences) (f : source_file)
  : occurrences :=
  match f.2 with
  | None => strings
  | Some original_content =>
      let content := strip_js_comments original_content in
      fold_left (html_in_js_match f.1 original_content)
                (finditer html_in_js_pattern content) strings
  end.

Definition extract_html_strings_from_js (js_files : list source_file)
  : occurrences :=
  fold_left extract_html_strings_file js_files ∅.

(** ** Catalog files and the file system *)

(** What [json.load] returns.  The program copies the values of a
    catalog and never looks into them. *)
#[local] Unset Elimination Schemes.
Inductive json : Type :=
| JNull
| JBool (b : bool)
| JNumber (n : Z)
| JString (s : string)
| JArray (items : list json)
| JObject (members : list (string * json)).
#[local] Set Elimination Schemes.

(** An insertion-ordered [dict] with string keys. *)
Abbreviation dict := (list (string * json)).

Fixpoint dict_get (k : string) (d : dict) : option json :=
  match d with
  | [] => None
  | (k', v) :: d' => if String.eqb k' k then Some v else dict_get k d'
  end.

(** [d[k] = v]: an existing key keeps its place. *)
Fixpoint dict_set (k : string) (v : json) (d : dict) : dict :=
  match d with
  | [] => [(k, v)]
  | (k', v') :: d' =>
      if String.eqb k' k then (k, v) :: d' else (k', v') :: dict_set k v d'
  end.

Definition dict_keys (d : dict) : list string := map fst d.

(** A catalog file of the [lang] directory: its stem and the document
    parsed from it, [None] when it cannot be read or parsed. *)
Abbreviation lang_file := (string * option json)%type.

(** What happens when [lang/base.json] is opened for writing and the
    object is dumped into it: the write succeeds; or [open] fails and the
    file is as it was; or [open] succeeds, which empties the file, and
    the dump fails, which leaves the file cut off. *)
Inductive write_result : Type :=
| WriteOk
| OpenFails
| DumpFails.

Record world : Type := World {
  root_html : list source_file;        (* ./*.html *)
  templates_html : list source_file;   (* templates/*.html *)
  js_files : list source_file;         (* js/**/*.js *)
  lang_files : list lang_file;         (* lang/*.json *)
  base_write : write_result            (* writing lang/base.json *)
}.

(** [lang/base.json] can be written. *)
Definition base_writable (w : world) : bool :=
  match base_write w with
  | WriteOk => true
  | _ => false
  end.

Definition find_html_files (w : world) : list source_file :=
  (root_html w ++ templates_html w)%list.

Definition find_js_files (w : world) : list source_file := js_files w.

Fixpoint lookup_file (stem : string) (fs : list lang_file)
  : option (option json) :=
  match fs with
  | [] => None
  | (s, doc) :: fs' => if String.eqb s stem then Some doc else lookup_file stem fs'
  end.

Fixpoint write_file (stem : string) (doc : json) (fs : list lang_file)
  : list lang_file :=
  match fs with
  | [] => [(stem, Some doc)]
  | (s, old) :: fs' =>
      if String.eqb s stem then (s, Some doc) :: fs'
      else (s, old) :: write_file stem doc fs'
  end.

(** A call either returns or lets an exception escape. *)
Inductive completion (A : Type) : Type :=
| Returns (a : A)
| Raises.
Arguments Returns {A} a.
Arguments Raises {A}.

(** [sorted(X)] for a set of strings: by code point, lexicographically. *)
Definition str_le (a b : string) : Prop := String.leb a b = true.

#[global] Instance str_le_dec : RelDecision str_le.
Proof. intros a b. unfold str_le. apply _. Defined.

Definition sorted (X : gset string) : list string :=
  merge_sort str_le (elements X).

(** ** The catalog loader *)

Definition load_lang_file (acc : gset string * gmap string (gset string))
  (f : lang_file) : gset string * gmap string (gset string) :=
  match f.2 with
  | Some (JObject data) =>
      let keys : gset string :=
        list_to_set (dict_keys data) ∖ {[ EmptyString ]} in
      (acc.1 ∪ keys, <[ f.1 := keys ]> acc.2)
  | _ => acc
  end.

Definition load_translation_keys (w : world)
  : gset string * gmap string (gset string) :=
  match lang_files w with
  | [] => (∅, ∅)
  | fs =>
      let r := fold_left load_lang_file fs (∅, ∅) in
      (r.1 ∖ {[ EmptyString ]}, r.2)
  end.

(** ** The exporter *)

Definition read_existing_data (w : world) : json :=
  match lookup_file "base" (lang_files w) with
  | Some (Some doc) => doc
  | _ => JObject []
  end.

(** [existing_data.get(key, '')] on a [dict]. *)
Definition get_or_empty (existing : dict) (key : string) : json :=
  default (JString EmptyString) (dict_get key existing).

Definition add_key (existing : dict) (new_data : dict) (key : string) : dict :=
  dict_set key (get_or_empty existing key) new_data.

Definition build_new_data (used_strings : gset string) (existing : dict)
  : dict :=
  let new_data := fold_left (add_key existing) (sorted SPECIAL_KEYS) [] in
  let new_data := fold_left (add_key existing) (sorted used_strings) new_data in
  add_key existing new_data EmptyString.

(** The file system after [json.dump] to [lang/base.json]. *)
Definition write_base (doc : json) (w : world) : world :=
  World (root_html w) (templates_html w) (js_files w)
        (write_file "base" doc (lang_files w)) (base_write w).

(** A file that was opened for writing and not written to the end: it is
    there and it cannot be parsed. *)
Fixpoint cut_off_file (stem : string) (fs : list lang_file) : list lang_file :=
  match fs with
  | [] => [(stem, None)]
  | (s, old) :: fs' =>
      if String.eqb s stem then (s, None) :: fs'
      else (s, old) :: cut_off_file stem fs'
  end.

(** The file system after a write of [lang/base.json] that failed. *)
Definition after_failed_write (w : world) : world :=
  match base_write w with
  | DumpFails =>
      World (root_html w) (templates_html w) (js_files w)
            (cut_off_file "base" (lang_files w)) (base_write w)
  | _ => w
  end.

(** [export_to_base_json]: the flag it returns and the file system it
    leaves.  [existing_data.get] raises when the document is not an
    object; a failed write leaves the file as it was or cut off. *)
Definition export_to_base_json (used_strings : gset string) (w : world)
  : completion (bool * world) :=
  match read_existing_data w with
  | JObject existing_data =>
      let new_data := build_new_data used_strings existing_data in
      if base_writable w
      then Returns (true, write_base (JObject new_data) w)
      else Returns (false, after_failed_write w)
  | _ => Raises
  end.

(** ** The comparator and [main] *)

Definition merge_occurrences (a b : occurrences) : occurrences :=
  union_with (fun l1 l2 => Some (l1 ++ l2)%list) a b.

Definition all_used_strings_with_locations (w : world) : occurrences :=
  merge_occurrences
    (merge_occurrences (extract_ds_i18n_strings (find_html_files w))
                       (extract_l_function_strings (find_js_files w)))
    (extract_html_strings_from_js (find_js_files w)).

Definition excluded_strings (w : world) : gset string :=
  filter (fun s => should_exclude_string s = true)
         (dom (all_used_strings_with_locations w)).

Definition used_strings_with_locations (w : world) : occurrences :=
  filter (fun kv => kv.1 ∉ excluded_strings w)
         (all_used_strings_with_locations w).

Definition used_strings (w : world) : gset string :=
  dom (used_strings_with_locations w).

Definition translation_keys (w : world) : gset string :=
  (load_translation_keys w).1.

Definition keys_by_language (w : world) : gmap string (gset string) :=
  (load_translation_keys w).2.

Definition translation_keys_for_comparison (w : world) : gset string :=
  translation_keys w ∖ SPECIAL_KEYS.

Definition keys_by_language_filtered (w : world) : gmap string (gset string) :=
  (fun keys => keys ∖ SPECIAL_KEYS) <$> keys_by_language w.

Definition missing_translations (w : world) : gset string :=
  used_strings w ∖ translation_keys_for_comparison w.

(** For a missing string, the sorted codes of the languages lacking it. *)
Definition missing_by_language (w : world) : gmap string (list string) :=
  set_to_map
    (fun s =>
       (s, sorted (dom (filter (fun lk => s ∉ lk.2)
                               (keys_by_language_filtered w)))))
    (missing_translations w).

Definition unused_translations (w : world) : gset string :=
  (translation_keys_for_comparison w ∖ used_strings w) ∖ WHITELIST_UNUSED.

(** The command line flags, read from [sys.argv]. *)
Definition has_flag (flag : string) (argv : list string) : bool :=
  bool_decide (flag ∈ argv).

Definition VERBOSE (argv : list string) : bool :=
  has_flag "--verbose" argv || has_flag "-v" argv.
Definition JSON_OUTPUT (argv : list string) : bool := has_flag "--json" argv.
Definition COMPACT (argv : list string) : bool := has_flag "--compact" argv.
Definition EXPORT_BASE (argv : list string) : bool :=
  has_flag "--export-base" argv || has_flag "-e" argv.

(** A set is truthy when it is not empty. *)
Definition nonempty (X : gset string) : bool := bool_decide (X ≠ ∅).

(** [main()]: the value it returns and the file system it leaves. *)
Definition main (argv : list string) (w : world) : completion (Z * world) :=
  let used_strings := used_strings w in
  if EXPORT_BASE argv then
    match export_to_base_json used_strings w with
    | Returns (success, w') => Returns (if success then 0 else 1, w')
    | Raises => Raises
    end
  else
    let missing_translations := missing_translations w in
    let unused_translations := unused_translations w in
    if JSON_OUTPUT argv then
      Returns (if nonempty missing_translations || nonempty unused_translations
               then 1 else 0, w)
    else
      if nonempty missing_translations || nonempty unused_translations
      then Returns (1, w)
      else Returns (0, w).


(** * Properties *)

(** ** The kept strings and the catalog keys *)

Section comparator.

Implicit Types (w : world) (s : string).

Lemma elem_of_excluded_strings w s :
  s ∈ excluded_strings w ↔
  should_exclude_string s = true ∧ s ∈ dom (all_used_strings_with_locations w).
Proof. unfold excluded_strings. by rewrite elem_of_filter. Qed.

(** The kept strings are the extracted strings that match no exclusion
    pattern. *)
Lemma elem_of_used_strings w s :
  s ∈ used_strings w ↔
  s ∈ dom (all_used_strings_with_locations w) ∧ should_exclude_string s = false.
Proof.
  unfold used_strings, used_strings_with_locations.
  rewrite !elem_of_dom. split.
  - intros [v Hv]. apply map_lookup_filter_Some in Hv as [Hv Hex]. simpl in Hex.
    split; [by eexists|].
    destruct (should_exclude_string s) eqn:E; [|done].
    exfalso. apply Hex, elem_of_excluded_strings.
    split; [done|]. apply elem_of_dom. by eexists.
  - intros [[v Hv] Hex]. exists v. apply map_lookup_filter_Some.
    split; [done|]. simpl. rewrite elem_of_excluded_strings.
    intros [Hf _]. congruence.
Qed.

Lemma load_lang_file_step acc (f : lang_file) s :
  s ∈ (load_lang_file acc f).1 ↔
  s ∈ acc.1 ∨
  ∃ data, f.2 = Some (JObject data) ∧ s ∈ dict_keys data ∧ s ≠ EmptyString.
Proof.
  unfold load_lang_file.
  destruct (f.2) as [[| | | | |data]|]; simpl;
    try (split; [by left|]; by intros [?|(?&?&_)]).
  rewrite elem_of_union, elem_of_difference, elem_of_list_to_set,
    elem_of_singleton.
  split.
  - intros [?|[? ?]]; [by left|]. right. by exists data.
  - intros [?|(d&Hd&?&?)]; [by left|]. right. by inversion Hd; subst.
Qed.

Lemma load_lang_file_keys (fs : list lang_file) acc s :
  s ∈ (fold_left load_lang_file fs acc).1 ↔
  s ∈ acc.1 ∨
  ∃ stem data, (stem, Some (JObject data)) ∈ fs
               ∧ s ∈ dict_keys data ∧ s ≠ EmptyString.
Proof.
  revert acc. induction fs as [|[stem doc] fs IH]; intros acc; simpl.
  - split; [by left|]. intros [?|(?&?&H&_)]; [done|]. by apply elem_of_nil in H.
  - rewrite IH, load_lang_file_step. simpl. split.
    + intros [[?|(d&->&?)]|(st&d&H&?)]; [by left| |].
      * right. exists stem, d. split; [apply list_elem_of_here|done].
      * right. exists st, d. split; [by apply list_elem_of_further|done].
    + intros [?|(st&d&H&?)]; [by left; left|].
      apply elem_of_cons in H as [H|H].
      * inversion H; subst. left; right. by exists d.
      * right. by exists st, d.
Qed.

(** The union of the keys of the catalogs that could be loaded, the
    empty key left out. *)
Lemma elem_of_translation_keys w s :
  s ∈ translation_keys w ↔
  s ≠ EmptyString ∧
  ∃ stem data, (stem, Some (JObject data)) ∈ lang_files w ∧ s ∈ dict_keys data.
Proof.
  unfold translation_keys, load_translation_keys.
  destruct (lang_files w) as [|f fs] eqn:E.
  - simpl. split; [intros H; by apply not_elem_of_empty in H|].
    intros [_ (?&?&H&_)]. by apply elem_of_nil in H.
  - cbn [fst]. rewrite elem_of_difference, elem_of_singleton, load_lang_file_keys.
    simpl. split.
    + intros [[H|(st&d&H&?&?)] Hne]; [by apply not_elem_of_empty in H|].
      split; [done|]. by exists st, d.
    + intros [Hne (st&d&H&?)]. split; [|done]. right. by exists st, d.
Qed.

Lemma special_keys_excluded s :
  s ∈ SPECIAL_KEYS → should_exclude_string s = true.
Proof.
  unfold SPECIAL_KEYS. rewrite elem_of_union, !elem_of_singleton.
  by intros [-> | ->]; vm_compute.
Qed.

Lemma excluded_not_used w s :
  should_exclude_string s = true → s ∉ used_strings w.
Proof. rewrite elem_of_used_strings. intros H [_ H']. congruence. Qed.

End comparator.

(** ** The comparator (C1, C2, C3, C4, C10) *)

(** Worlds used to evaluate the model. *)
Definition js_only (content : string) (catalogs : list lang_file) : world :=
  World [] [] [("js/app.js", Some content)] catalogs WriteOk.

Definition referencing (s : string) : world :=
  js_only ("l('" ++ s ++ "')") [].

Definition es_catalog (keys : list string) : lang_file :=
  ("es", Some (JObject (map (fun k => (k, JString "x")) keys))).

(** C1. In every comparison run the comparator computes
    missing = kept_strings − (union_keys − reserved_keys) and
    unused = (union_keys − reserved_keys) − kept_strings − allow_list,
    where kept_strings are the extracted strings that match no exclusion
    pattern, union_keys is the union of the keys of the catalogs that
    were loaded (the loader drops the empty key), reserved_keys is
    [SPECIAL_KEYS] and allow_list is [WHITELIST_UNUSED]. *)
Theorem comparator_computes_missing_and_unused (w : world) :
  missing_translations w
    = used_strings w ∖ (translation_keys w ∖ SPECIAL_KEYS)
  ∧ unused_translations w
    = (translation_keys w ∖ SPECIAL_KEYS) ∖ used_strings w ∖ WHITELIST_UNUSED
  ∧ (∀ s, s ∈ used_strings w ↔
          s ∈ dom (all_used_strings_with_locations w)
          ∧ should_exclude_string s = false)
  ∧ (∀ s, s ∈ translation_keys w ↔
          s ≠ EmptyString
          ∧ ∃ stem data, (stem, Some (JObject data)) ∈ lang_files w
                         ∧ s ∈ dict_keys data)
  ∧ SPECIAL_KEYS = {[ ".authorMsg"; ".title" ]}
  ∧ WHITELIST_UNUSED = list_to_set whitelist_entries.
Proof.
  split; [reflexivity|]. split; [reflexivity|].
  split; [intros s; apply elem_of_used_strings|].
  split; [intros s; apply elem_of_translation_keys|].
  split; reflexivity.
Qed.

(** C2. A reserved key is never in the missing set and never in the unused
    set, whether or not it is referenced in source or present in a
    catalog: it matches the class-selector exclusion pattern, so it is
    never a kept string, and it is removed from the catalog keys. *)
Theorem reserved_key_never_reported (w : world) (k : string) :
  k ∈ SPECIAL_KEYS →
  (k ∉ missing_translations w) ∧ (k ∉ unused_translations w).
Proof.
  intros Hk. split.
  - unfold missing_translations. rewrite elem_of_difference.
    intros [Hused _]. by apply (excluded_not_used w k (special_keys_excluded k Hk)).
  - unfold unused_translations, translation_keys_for_comparison.
    rewrite !elem_of_difference. intros [[[_ H] _] _]. by apply H.
Qed.

Lemma reserved_key_never_reported_witness :
  let w := js_only "l('.title')" [es_catalog [".title"]] in
  ".title" ∈ dom (all_used_strings_with_locations w)
  ∧ (".title" ∉ missing_translations w) ∧ (".title" ∉ unused_translations w).
Proof.
  split.
  - compute_done.
  - apply (reserved_key_never_reported _ ".title").
    compute_done.
Defined.

(** C3, as stated, fails: a catalog key that matches an exclusion pattern
    and is not referenced in source is reported as unused. *)
Lemma excluded_string_reported_unused :
  let w := js_only EmptyString [es_catalog ["#foo"]] in
  should_exclude_string "#foo" = true
  ∧ ¬ (("#foo" ∉ missing_translations w) ∧ ("#foo" ∉ unused_translations w)).
Proof.
  split; [by vm_compute|].
  intros [_ H]. apply H. compute_done.
Qed.

(** C3, amended. A string that matches an exclusion pattern is never in
    the missing set; it is in the unused set exactly when it is a key of a
    loaded catalog and is neither reserved nor on the allow-list: the
    filter is applied to the extracted strings, not to the catalog
    keys. *)
Theorem excluded_string_never_missing (w : world) (s : string) :
  should_exclude_string s = true →
  (s ∉ missing_translations w)
  ∧ (s ∈ unused_translations w ↔
     s ∈ translation_keys w ∧ (s ∉ SPECIAL_KEYS) ∧ (s ∉ WHITELIST_UNUSED)).
Proof.
  intros Hs. pose proof (excluded_not_used w s Hs) as Hused. split.
  - unfold missing_translations. rewrite elem_of_difference. by intros [? _].
  - unfold unused_translations, translation_keys_for_comparison.
    rewrite !elem_of_difference.
    split.
    + intros [[[H1 H2] _] H3]. exact (conj H1 (conj H2 H3)).
    + intros (H1 & H2 & H3). exact (conj (conj (conj H1 H2) Hused) H3).
Qed.

Lemma excluded_string_never_missing_witness :
  let w := js_only "l('.hide')" [es_catalog ["Save"]] in
  ".hide" ∈ dom (all_used_strings_with_locations w)
  ∧ (".hide" ∉ missing_translations w)
  ∧ (".hide" ∈ unused_translations w ↔
     ".hide" ∈ translation_keys w ∧ (".hide" ∉ SPECIAL_KEYS)
     ∧ (".hide" ∉ WHITELIST_UNUSED)).
Proof.
  split.
  - compute_done.
  - apply (excluded_string_never_missing _ ".hide"). vm_compute. reflexivity.
Defined.

Lemma whitelist_entries_can_be_missing :
  Forall (fun s => s ∈ missing_translations (referencing s)) whitelist_entries.
Proof.
  compute_done.
Qed.

(** C4. A string of the allow-list is never in the unused set.  It is in
    the missing set exactly when it is a kept string and is not among the
    catalog keys minus the reserved keys, and there are runs where it is:
    the allow-list is subtracted from the unused set only. *)
Theorem allow_list_suppresses_unused_only (w : world) (s : string) :
  s ∈ WHITELIST_UNUSED →
  (s ∉ unused_translations w)
  ∧ (s ∈ missing_translations w ↔
     s ∈ used_strings w ∧ (s ∉ translation_keys w ∖ SPECIAL_KEYS))
  ∧ s ∈ missing_translations (referencing s).
Proof.
  intros Hs. split; [|split].
  - unfold unused_translations. rewrite elem_of_difference.
    intros [_ H]. by apply H.
  - unfold missing_translations, translation_keys_for_comparison.
    by rewrite elem_of_difference.
  - apply elem_of_list_to_set in Hs.
    pose proof whitelist_entries_can_be_missing as H.
    rewrite Forall_forall in H. by apply H.
Qed.

Lemma allow_list_suppresses_unused_only_witness :
  let w := js_only "l('White')" [es_catalog ["Start"]] in
  ("White" ∉ unused_translations w)
  ∧ ("White" ∈ missing_translations w ↔
     "White" ∈ used_strings w ∧ ("White" ∉ translation_keys w ∖ SPECIAL_KEYS))
  ∧ "White" ∈ missing_translations (referencing "White").
Proof.
  apply (allow_list_suppresses_unused_only _ "White").
  compute_done.
Defined.

(** C10. The missing set and the unused set are disjoint: every missing
    string is a kept string and no unused string is. *)
Theorem missing_and_unused_disjoint (w : world) :
  missing_translations w ⊆ used_strings w
  ∧ unused_translations w ## used_strings w
  ∧ missing_translations w ## unused_translations w.
Proof.
  unfold missing_translations, unused_translations. split; [|split].
  - intros s. rewrite elem_of_difference. by intros [? _].
  - apply elem_of_disjoint. intros s. rewrite !elem_of_difference.
    by intros [[_ ?] _] ?.
  - apply elem_of_disjoint. intros s. rewrite !elem_of_difference.
    by intros [? _] [[_ ?] _].
Qed.

(** ** The exit status (C9) *)








(** ** Extracted strings are not empty *)

Section extractor_invariant.

(** No occurrence is recorded under the empty string. *)
Definition no_empty_key (strings : occurrences) : Prop :=
  strings !! EmptyString = None.

Lemma fold_left_preserves {A B} (P : B → Prop) (f : B → A → B) l b :
  P b → (∀ b a, P b → P (f b a)) → P (fold_left f l b).
Proof. intros Hb Hf. revert b Hb. induction l; simpl; auto. Qed.

Lemma truthy_ne s : truthy s = true ↔ s ≠ EmptyString.
Proof. by destruct s. Qed.

Lemma record_at_no_empty_key text loc strings :
  truthy text = true → no_empty_key strings →
  no_empty_key (record_at text loc strings).
Proof.
  unfold no_empty_key, record_at. intros Ht Hs.
  rewrite lookup_insert_ne; [done|]. by apply truthy_ne.
Qed.

Lemma replace_truthy old new s :
  truthy new = true → truthy s = true → truthy (replace old new s) = true.
Proof.
  unfold replace. destruct s as [|x t]; [done|]. intros Hn _.
  cbn [replace_from].
  destruct (String.prefix old (String x t)); [|done].
  by destruct new.
Qed.

Lemma unescape_truthy s : truthy s = true → truthy (unescape s) = true.
Proof. intros H. unfold unescape. by repeat apply replace_truthy. Qed.

Lemma ds_i18n_match_no_empty_key path content strings m :
  no_empty_key strings → no_empty_key (ds_i18n_match path content strings m).
Proof.
  intros H. unfold ds_i18n_match.
  destruct (has_complex_tags _); [done|].
  destruct (truthy _) eqn:E; [|done]. by apply record_at_no_empty_key.
Qed.

Lemma l_function_match_no_empty_key path content strings m :
  no_empty_key strings → no_empty_key (l_function_match path content strings m).
Proof.
  intros H. unfold l_function_match.
  destruct (truthy _) eqn:E; [|done].
  apply record_at_no_empty_key; [|done]. by apply unescape_truthy.
Qed.

Lemma template_match_no_empty_key loc strings tm :
  no_empty_key strings → no_empty_key (template_match loc strings tm).
Proof.
  intros H. unfold template_match.
  destruct (truthy _) eqn:E; [|done].
  apply record_at_no_empty_key; [|done]. by apply unescape_truthy.
Qed.

Lemma html_in_js_match_no_empty_key path content strings m :
  no_empty_key strings → no_empty_key (html_in_js_match path content strings m).
Proof.
  intros H. unfold html_in_js_match.
  destruct (has_complex_tags _); [done|].
  destruct (truthy _) eqn:E; [|done].
  assert (no_empty_key
            (fold_left (template_match (location_of path content (m_start m)))
               (finditer template_literal_pattern (group 2 m)) strings)) as H'.
  { apply (fold_left_preserves no_empty_key); [done|].
    intros. by apply template_match_no_empty_key. }
  destruct (search _ _); [done|]. by apply record_at_no_empty_key.
Qed.

Lemma extract_ds_i18n_no_empty_key files :
  no_empty_key (extract_ds_i18n_strings files).
Proof.
  apply (fold_left_preserves no_empty_key); [apply lookup_empty|].
  intros strings [path [content|]] H; unfold extract_ds_i18n_file; cbn [fst snd]; [|done].
  apply (fold_left_preserves no_empty_key); [done|].
  intros. by apply ds_i18n_match_no_empty_key.
Qed.

Lemma extract_l_function_no_empty_key files :
  no_empty_key (extract_l_function_strings files).
Proof.
  apply (fold_left_preserves no_empty_key); [apply lookup_empty|].
  intros strings [path [content|]] H; unfold extract_l_function_file; cbn [fst snd]; [|done].
  apply (fold_left_preserves no_empty_key); [done|].
  intros. by apply l_function_match_no_empty_key.
Qed.

Lemma extract_html_strings_no_empty_key files :
  no_empty_key (extract_html_strings_from_js files).
Proof.
  apply (fold_left_preserves no_empty_key); [apply lookup_empty|].
  intros strings [path [content|]] H; unfold extract_html_strings_file; cbn [fst snd]; [|done].
  apply (fold_left_preserves no_empty_key); [done|].
  intros. by apply html_in_js_match_no_empty_key.
Qed.

Lemma merge_occurrences_no_empty_key a b :
  no_empty_key a → no_empty_key b → no_empty_key (merge_occurrences a b).
Proof.
  unfold no_empty_key, merge_occurrences. intros Ha Hb.
  by rewrite lookup_union_with, Ha, Hb.
Qed.

Lemma used_strings_not_empty (w : world) : EmptyString ∉ used_strings w.
Proof.
  rewrite elem_of_used_strings, elem_of_dom. intros [[v Hv] _].
  assert (no_empty_key (all_used_strings_with_locations w)) as H.
  { unfold all_used_strings_with_locations.
    repeat apply merge_occurrences_no_empty_key.
    - apply extract_ds_i18n_no_empty_key.
    - apply extract_l_function_no_empty_key.
    - apply extract_html_strings_no_empty_key. }
  unfold no_empty_key in H. congruence.
Qed.

Lemma used_strings_not_special (w : world) (k : string) :
  k ∈ SPECIAL_KEYS → k ∉ used_strings w.
Proof. intros Hk. by apply excluded_not_used, special_keys_excluded. Qed.

End extractor_invariant.

(** ** The order of [sorted] *)

#[global] Instance str_le_total : Total str_le.
Proof. intros a b. apply String.leb_total. Qed.

Lemma compare_not_gt_trans (a b c : string) :
  String.compare a b ≠ Gt → String.compare b c ≠ Gt → String.compare a c ≠ Gt.
Proof.
  revert b c. induction a as [|x a IH]; intros [|y b] [|z c]; simpl; try done.
  unfold Ascii.compare.
  destruct (N.compare_spec (N_of_ascii x) (N_of_ascii y)) as [Hxy|Hxy|Hxy];
    destruct (N.compare_spec (N_of_ascii y) (N_of_ascii z)) as [Hyz|Hyz|Hyz];
    destruct (N.compare_spec (N_of_ascii x) (N_of_ascii z)) as [Hxz|Hxz|Hxz];
    try done; try lia; eauto.
Qed.

#[global] Instance str_le_trans : Transitive str_le.
Proof.
  intros a b c. unfold str_le, String.leb. intros Hab Hbc.
  pose proof (compare_not_gt_trans a b c) as H.
  destruct (String.compare a b), (String.compare b c), (String.compare a c);
    try done; exfalso; by apply H.
Qed.

Lemma sorted_perm (X : gset string) : sorted X ≡ₚ elements X.
Proof. apply merge_sort_Permutation. Qed.

Lemma sorted_strongly (X : gset string) : StronglySorted str_le (sorted X).
Proof. apply StronglySorted_merge_sort; apply _. Qed.

Lemma elem_of_sorted (X : gset string) s : s ∈ sorted X ↔ s ∈ X.
Proof. by rewrite sorted_perm, elem_of_elements. Qed.

Lemma NoDup_sorted (X : gset string) : NoDup (sorted X).
Proof. rewrite sorted_perm. apply NoDup_elements. Qed.

Lemma sorted_special_keys : sorted SPECIAL_KEYS = [".authorMsg"; ".title"].
Proof. by vm_compute. Qed.

(** ** Insertion-ordered dictionaries *)

Section dict.

Implicit Types (d : dict) (k : string) (v : json).

Lemma dict_get_set_eq k v d : dict_get k (dict_set k v d) = Some v.
Proof.
  induction d as [|[k' v'] d IH]; simpl.
  - by rewrite String.eqb_refl.
  - destruct (String.eqb k' k) eqn:E; simpl.
    + by rewrite String.eqb_refl.
    + by rewrite E.
Qed.

Lemma dict_get_set_ne k k' v d :
  k ≠ k' → dict_get k' (dict_set k v d) = dict_get k' d.
Proof.
  intros Hne. induction d as [|[k0 v0] d IH]; simpl.
  - by apply String.eqb_neq in Hne as ->.
  - destruct (String.eqb k0 k) eqn:E; simpl.
    + apply String.eqb_eq in E as ->.
      by apply String.eqb_neq in Hne as ->.
    + by rewrite IH.
Qed.

Lemma dict_get_None k d : dict_get k d = None ↔ k ∉ dict_keys d.
Proof.
  unfold dict_keys. induction d as [|[k' v'] d IH]; simpl.
  - split; [intros _; apply not_elem_of_nil|done].
  - rewrite not_elem_of_cons. destruct (String.eqb k' k) eqn:E.
    + apply String.eqb_eq in E as ->. split; [done|]. by intros [? _].
    + apply String.eqb_neq in E. rewrite IH. split; [|by intros [_ ?]].
      intros ?. split; [by intros ->|done].
Qed.

(** Assigning to a key that is not there appends it. *)
Lemma dict_set_fresh k v d :
  dict_get k d = None → dict_set k v d = (d ++ [(k, v)])%list.
Proof.
  induction d as [|[k' v'] d IH]; simpl; [done|].
  destruct (String.eqb k' k); [done|]. intros H. by rewrite IH.
Qed.

Lemma dict_get_app_fresh k d d' :
  dict_get k d = None → dict_get k (d ++ d')%list = dict_get k d'.
Proof.
  induction d as [|[k' v'] d IH]; simpl; [done|].
  destruct (String.eqb k' k); [done|]. apply IH.
Qed.

Variable existing : dict.

Definition entry (k : string) : string * json := (k, get_or_empty existing k).

Lemma dict_get_entries k (l : list string) :
  dict_get k (map entry l)
  = if decide (k ∈ l) then Some (get_or_empty existing k) else None.
Proof.
  induction l as [|k' l IH]; simpl; [done|].
  destruct (String.eqb k' k) eqn:E.
  - apply String.eqb_eq in E as ->.
    rewrite decide_True; [done|apply list_elem_of_here].
  - apply String.eqb_neq in E. rewrite IH.
    destruct (decide (k ∈ l)) as [Hin|Hin].
    + rewrite decide_True; [done|by apply list_elem_of_further].
    + rewrite decide_False; [done|]. rewrite not_elem_of_cons. by split.
Qed.

(** Keys that are new and distinct are appended in the order given. *)
Lemma fold_add_key_fresh (l : list string) d :
  NoDup l → (∀ k, k ∈ l → dict_get k d = None) →
  fold_left (add_key existing) l d = (d ++ map entry l)%list.
Proof.
  revert d. induction l as [|k l IH]; intros d Hnd Hfresh; simpl.
  - by rewrite app_nil_r.
  - apply NoDup_cons in Hnd as [Hk Hnd].
    unfold add_key at 2.
    rewrite dict_set_fresh by (apply Hfresh, list_elem_of_here).
    rewrite IH; [by rewrite <- app_assoc|done|].
    intros k' Hk'. rewrite dict_get_app_fresh.
    + simpl. destruct (String.eqb k k') eqn:E; [|done].
      apply String.eqb_eq in E as ->. done.
    + by apply Hfresh, list_elem_of_further.
Qed.

(** After the loop every key of the loop holds its value from
    [existing], whatever was there before. *)
Lemma dict_get_fold_add_key (l : list string) d k :
  dict_get k (fold_left (add_key existing) l d)
  = if decide (k ∈ l) then Some (get_or_empty existing k) else dict_get k d.
Proof.
  revert d. induction l as [|k' l IH]; intros d; simpl; [done|].
  rewrite IH. destruct (decide (k ∈ l)) as [Hin|Hin].
  - rewrite decide_True; [done|by apply list_elem_of_further].
  - unfold add_key. destruct (decide (k' = k)) as [->|Hne].
    + rewrite dict_get_set_eq.
      rewrite decide_True; [done|apply list_elem_of_here].
    + rewrite dict_get_set_ne by done.
      rewrite decide_False; [done|]. rewrite not_elem_of_cons. by split.
Qed.

End dict.

Lemma fold_add_key_ext (e1 e2 : dict) (l : list string) (d : dict) :
  (∀ k, k ∈ l → get_or_empty e1 k = get_or_empty e2 k) →
  fold_left (add_key e1) l d = fold_left (add_key e2) l d.
Proof.
  revert d. induction l as [|k l IH]; intros d H; simpl; [done|].
  unfold add_key at 2 4. rewrite H by apply list_elem_of_here.
  apply IH. intros k' ?. by apply H, list_elem_of_further.
Qed.

(** ** The exporter (C7, C8) *)

Section exporter.

Implicit Types (w : world) (U : gset string) (existing : dict).

Lemma lookup_write_file stem doc (fs : list lang_file) :
  lookup_file stem (write_file stem doc fs) = Some (Some doc).
Proof.
  induction fs as [|[s old] fs IH]; simpl.
  - by rewrite String.eqb_refl.
  - destruct (String.eqb s stem) eqn:E; simpl; by rewrite E.
Qed.

Lemma write_file_twice stem doc (fs : list lang_file) :
  write_file stem doc (write_file stem doc fs) = write_file stem doc fs.
Proof.
  induction fs as [|[s old] fs IH]; simpl.
  - by rewrite String.eqb_refl.
  - destruct (String.eqb s stem) eqn:E; simpl; rewrite E; [done|by rewrite IH].
Qed.

Lemma read_after_write doc w : read_existing_data (write_base doc w) = doc.
Proof. unfold read_existing_data, write_base. simpl. by rewrite lookup_write_file. Qed.

Lemma write_base_twice doc w :
  write_base doc (write_base doc w) = write_base doc w.
Proof. unfold write_base. simpl. by rewrite write_file_twice. Qed.

(** The exporter reads no source file and writes none. *)
Lemma used_strings_write_base doc w : used_strings (write_base doc w) = used_strings w.
Proof. reflexivity. Qed.

(** The keys of the written object, in the order of insertion. *)
Definition key_order U : list string :=
  (sorted SPECIAL_KEYS ++ sorted U ++ [EmptyString])%list.

Lemma build_new_data_fold U existing :
  build_new_data U existing = fold_left (add_key existing) (key_order U) [].
Proof.
  unfold build_new_data, key_order. by rewrite !fold_left_app.
Qed.

Lemma elem_of_key_order U k :
  k ∈ key_order U ↔ k ∈ SPECIAL_KEYS ∨ k ∈ U ∨ k = EmptyString.
Proof.
  unfold key_order.
  by rewrite !elem_of_app, !elem_of_sorted, list_elem_of_singleton.
Qed.

Lemma NoDup_key_order U :
  EmptyString ∉ U → (∀ k, k ∈ SPECIAL_KEYS → k ∉ U) → NoDup (key_order U).
Proof.
  intros Hempty Hspecial. unfold key_order.
  apply NoDup_app. split; [apply NoDup_sorted|]. split.
  - intros k Hk. apply elem_of_sorted in Hk.
    rewrite elem_of_app, elem_of_sorted, list_elem_of_singleton.
    intros [HU| ->]; [by apply (Hspecial k)|].
    revert Hk. by vm_compute.
  - apply NoDup_app. split; [apply NoDup_sorted|]. split; [|apply NoDup_singleton].
    intros k Hk. apply elem_of_sorted in Hk.
    rewrite list_elem_of_singleton. by intros ->.
Qed.

(** For the kept strings of a run, each key is written once, in the
    order of [key_order], with its value from the existing catalog. *)
Lemma build_new_data_kept w existing :
  build_new_data (used_strings w) existing
  = map (fun k => (k, get_or_empty existing k)) (key_order (used_strings w)).
Proof.
  rewrite build_new_data_fold.
  rewrite (fold_add_key_fresh existing); [done| |done].
  apply NoDup_key_order;
    [apply used_strings_not_empty | apply used_strings_not_special].
Qed.

(** Exporting over the exported object gives it back. *)
Lemma build_new_data_idempotent U existing :
  build_new_data U (build_new_data U existing) = build_new_data U existing.
Proof.
  rewrite (build_new_data_fold U (build_new_data U existing)).
  rewrite (build_new_data_fold U existing) at 2.
  apply fold_add_key_ext. intros k Hk. unfold get_or_empty at 1.
  rewrite build_new_data_fold, dict_get_fold_add_key.
  by rewrite decide_True.
Qed.

Lemma export_returns U w existing :
  read_existing_data w = JObject existing → base_writable w = true →
  export_to_base_json U w
  = Returns (true, write_base (JObject (build_new_data U existing)) w).
Proof. unfold export_to_base_json. by intros -> ->. Qed.

Lemma export_returns_inv U w w' :
  export_to_base_json U w = Returns (true, w') →
  ∃ existing, read_existing_data w = JObject existing
              ∧ base_writable w = true
              ∧ w' = write_base (JObject (build_new_data U existing)) w.
Proof.
  unfold export_to_base_json.
  destruct (read_existing_data w) as [| | | | |existing]; try done.
  destruct (base_writable w); [|done].
  intros [= <-]. by exists existing.
Qed.

End exporter.

(** The export scenario of the specification: the base catalog defines
    Save, the source references Save and Cancel. *)
Definition export_argv : list string := ["check_translations.py"; "--export-base"].

Definition save_cancel : world :=
  World [] [] [("js/app.js", Some "l('Save'); l('Cancel')")]
        [("base", Some (JObject [("Save", JString "Guardar");
                                 ("Obsolete", JString "Viejo")]))]
        WriteOk.

Definition save_cancel_exported : world :=
  World [] [] [("js/app.js", Some "l('Save'); l('Cancel')")]
        [("base", Some (JObject [(".authorMsg", JString EmptyString);
                                 (".title", JString EmptyString);
                                 ("Cancel", JString EmptyString);
                                 ("Save", JString "Guardar");
                                 (EmptyString, JString EmptyString)]))]
        WriteOk.

(** C7. In an export run over an existing catalog [existing] the object
    written to the base catalog has, in this order, the reserved keys
    sorted, the kept strings sorted and the empty key; every key is mapped
    to its value in [existing] when it is defined there and to the empty
    string otherwise.  So a value of a surviving key is preserved, and a
    key of [existing] that is neither kept, reserved nor empty is
    dropped. *)
Theorem export_writes_canonical_catalog
  (argv : list string) (w : world) (existing : dict) :
  EXPORT_BASE argv = true →
  read_existing_data w = JObject existing →
  base_writable w = true →
  let U := used_strings w in
  let keys := ([".authorMsg"; ".title"] ++ sorted U ++ [EmptyString])%list in
  let new_data := map (fun k => (k, get_or_empty existing k)) keys in
  (∃ w', main argv w = Returns (0, w')
         ∧ lookup_file "base" (lang_files w') = Some (Some (JObject new_data)))
  ∧ sorted SPECIAL_KEYS = [".authorMsg"; ".title"]
  ∧ StronglySorted str_le (sorted U)
  ∧ (∀ s, s ∈ sorted U ↔ s ∈ U)
  ∧ NoDup keys
  ∧ (∀ k v, k ∈ keys → dict_get k existing = Some v →
            dict_get k new_data = Some v)
  ∧ (∀ k, k ∈ keys → dict_get k existing = None →
          dict_get k new_data = Some (JString EmptyString))
  ∧ (∀ k, (k ∉ U) → (k ∉ SPECIAL_KEYS) → k ≠ EmptyString →
          dict_get k new_data = None).
Proof.
  intros Hflag Hread Hwrite U keys new_data.
  assert (keys = key_order U) as Hkeys.
  { unfold keys, key_order. by rewrite sorted_special_keys. }
  assert (new_data = build_new_data U existing) as Hnew.
  { unfold new_data. rewrite Hkeys. symmetry. apply build_new_data_kept. }
  assert (∀ k, dict_get k new_data
               = if decide (k ∈ keys) then Some (get_or_empty existing k)
                 else None) as Hget.
  { intros k. apply (dict_get_entries existing). }
  split; [|split; [|split; [|split; [|split; [|split; [|split]]]]]].
  - exists (write_base (JObject new_data) w). split.
    + unfold main. rewrite Hflag. fold U.
      by rewrite (export_returns U w existing Hread Hwrite), Hnew.
    + apply lookup_write_file.
  - apply sorted_special_keys.
  - apply sorted_strongly.
  - intros s. apply elem_of_sorted.
  - rewrite Hkeys. apply NoDup_key_order;
      [apply used_strings_not_empty | apply used_strings_not_special].
  - intros k v Hk Hv. rewrite Hget, decide_True by done.
    unfold get_or_empty. by rewrite Hv.
  - intros k Hk Hv. rewrite Hget, decide_True by done.
    unfold get_or_empty. by rewrite Hv.
  - intros k HU Hs Hne. rewrite Hget, decide_False; [done|].
    rewrite Hkeys, elem_of_key_order.
    intros [H|[H|H]]; [exact (Hs H) | exact (HU H) | exact (Hne H)].
Qed.

Lemma export_writes_canonical_catalog_witness :
  ∃ w', main export_argv save_cancel = Returns (0, w')
        ∧ lookup_file "base" (lang_files w')
          = Some (Some (JObject [(".authorMsg", JString EmptyString);
                                 (".title", JString EmptyString);
                                 ("Cancel", JString EmptyString);
                                 ("Save", JString "Guardar");
                                 (EmptyString, JString EmptyString)])).
Proof.
  destruct (export_writes_canonical_catalog export_argv save_cancel
              [("Save", JString "Guardar"); ("Obsolete", JString "Viejo")]
              eq_refl eq_refl eq_refl) as [H _].
  revert H. vm_compute. exact (fun H => H).
Defined.

(** C8. The exporter is idempotent: a second export run over the file
    system left by a successful first one, the sources being the same,
    writes the same catalog object again and leaves the file system as
    the first run left it. *)
Theorem export_idempotent (argv : list string) (w w1 : world) :
  EXPORT_BASE argv = true →
  main argv w = Returns (0, w1) →
  used_strings w1 = used_strings w
  ∧ (∃ new_data, read_existing_data w1 = JObject new_data
                 ∧ export_to_base_json (used_strings w1) w1
                   = Returns (true, write_base (JObject new_data) w1))
  ∧ main argv w1 = Returns (0, w1).
Proof.
  intros Hflag. unfold main. rewrite Hflag.
  destruct (export_to_base_json (used_strings w) w) as [[[] w']|] eqn:E;
    try done.
  intros [= ->]. apply export_returns_inv in E as (existing & Hread & Hwrite & ->).
  set (new_data := build_new_data (used_strings w) existing).
  assert (export_to_base_json (used_strings w) (write_base (JObject new_data) w)
          = Returns (true, write_base (JObject new_data) w)) as Hagain.
  { rewrite (export_returns _ _ new_data); [|apply read_after_write|done].
    unfold new_data. by rewrite build_new_data_idempotent, write_base_twice. }
  split; [reflexivity|]. split.
  - exists new_data. split; [apply read_after_write|].
    rewrite used_strings_write_base, write_base_twice. apply Hagain.
  - rewrite used_strings_write_base. by rewrite Hagain.
Qed.

Lemma export_idempotent_witness :
  main export_argv save_cancel = Returns (0, save_cancel_exported)
  ∧ main export_argv save_cancel_exported = Returns (0, save_cancel_exported).
Proof.
  assert (main export_argv save_cancel = Returns (0, save_cancel_exported)) as H.
  { by vm_compute. }
  split; [exact H|].
  apply (export_idempotent export_argv save_cancel save_cancel_exported eq_refl H).
Defined.

(** ** Escape handling of the function-call rule (C5) *)

Section escapes.

(** [s] with a backslash put before every character of the class
    [special]. *)
Fixpoint escape_chars (special : ascii → bool) (s : string) : string :=
  match s with
  | EmptyString => EmptyString
  | String c t =>
      if special c then String bsl (String c (escape_chars special t))
      else String c (escape_chars special t)
  end.

(** The characters that [unescape] handles: backslash, single quote,
    double quote. *)
Definition needs_escape (c : ascii) : bool :=
  one_of (String bsl (String sq (chr dq))) c.

(** Modelled from the spec: the re-escaping of the round-trip property,
    which the source does not have.  It undoes the three replacements
    of [unescape]: a backslash is put before every backslash, single
    quote and double quote. *)
Definition reescape (text : string) : string := escape_chars needs_escape text.

(** A literal content in which every backslash, single quote and double
    quote is part of an escape sequence for one of these three
    characters. *)
Fixpoint fully_escaped (s : string) : bool :=
  match s with
  | EmptyString => true
  | String c t =>
      if Ascii.eqb c bsl then
        match t with
        | EmptyString => false
        | String d t' => needs_escape d && fully_escaped t'
        end
      else negb (needs_escape c) && fully_escaped t
  end.

Definition two_chars (a b : ascii) : string := String a (String b EmptyString).

Definition starts_with (c : ascii) (s : string) : bool :=
  match s with
  | EmptyString => false
  | String x _ => Ascii.eqb x c
  end.

Lemma prefix_two_chars a b x t :
  String.prefix (two_chars a b) (String x t)
  = Ascii.eqb x a && starts_with b t.
Proof.
  unfold two_chars. simpl. destruct (ascii_dec a x) as [->|Hne].
  - rewrite Ascii.eqb_refl. destruct t as [|y t]; simpl; [done|].
    destruct (ascii_dec b y) as [->|Hne].
    + rewrite Ascii.eqb_refl. by destruct t.
    + symmetry. apply Ascii.eqb_neq. congruence.
  - symmetry. apply andb_false_iff. left. apply Ascii.eqb_neq. congruence.
Qed.

Lemma replace_hit a b new t :
  replace (two_chars a b) new (String a (String b t))
  = new ++ replace (two_chars a b) new t.
Proof.
  unfold replace. cbn [replace_from]. rewrite prefix_two_chars.
  simpl starts_with. by rewrite !Ascii.eqb_refl.
Qed.

Lemma replace_miss_head a b new x t :
  x ≠ a →
  replace (two_chars a b) new (String x t)
  = String x (replace (two_chars a b) new t).
Proof.
  intros Hne. unfold replace. cbn [replace_from]. rewrite prefix_two_chars.
  by apply Ascii.eqb_neq in Hne as ->.
Qed.

Lemma replace_miss_next a b new x t :
  starts_with b t = false →
  replace (two_chars a b) new (String x t)
  = String x (replace (two_chars a b) new t).
Proof.
  intros Hne. unfold replace. cbn [replace_from]. rewrite prefix_two_chars.
  by rewrite Hne, andb_false_r.
Qed.

(** An escaped text never starts with an escaped character other than
    the backslash. *)
Lemma escape_chars_head special q t :
  q ≠ bsl → special q = true →
  starts_with q (escape_chars special t) = false.
Proof.
  intros Hq Hs. destruct t as [|c t]; cbn [escape_chars starts_with]; [done|].
  destruct (special c) eqn:E; cbn [starts_with]; apply Ascii.eqb_neq;
    congruence.
Qed.

(** Replacing backslash-[q] by [q] in an escaped text takes [q] out of
    the escaped class. *)
Lemma replace_escape_step (S S' : ascii → bool) q :
  q ≠ bsl → S bsl = true → S q = true → S' q = false →
  (∀ c, c ≠ q → S' c = S c) →
  ∀ t, replace (two_chars bsl q) (chr q) (escape_chars S t)
       = escape_chars S' t.
Proof.
  intros Hq Hbsl HSq HS'q Hsame. induction t as [|c t IH]; [done|].
  cbn [escape_chars]. destruct (decide (c = q)) as [->|Hc].
  - by rewrite HSq, HS'q, replace_hit, IH.
  - rewrite (Hsame c Hc). destruct (S c) eqn:E.
    + rewrite replace_miss_next by (cbn [starts_with]; by apply Ascii.eqb_neq).
      destruct (decide (c = bsl)) as [->|Hb].
      * by rewrite replace_miss_next, IH by by apply escape_chars_head.
      * by rewrite replace_miss_head, IH by done.
    + rewrite replace_miss_head, IH; [done|]. congruence.
Qed.

Lemma replace_escape_last (S : ascii → bool) :
  (∀ c, S c = Ascii.eqb c bsl) →
  ∀ t, replace (two_chars bsl bsl) (chr bsl) (escape_chars S t) = t.
Proof.
  intros HS. induction t as [|c t IH]; [done|].
  cbn [escape_chars]. rewrite HS. destruct (Ascii.eqb c bsl) eqn:E.
  - apply Ascii.eqb_eq in E as ->. by rewrite replace_hit, IH.
  - apply Ascii.eqb_neq in E. by rewrite replace_miss_head, IH.
Qed.

(** The escaped class after the first and after the second replacement
    of [unescape]. *)
Definition bsl_or_dq (c : ascii) : bool := Ascii.eqb bsl c || Ascii.eqb dq c.
Definition only_bsl (c : ascii) : bool := Ascii.eqb c bsl.

Lemma needs_escape_unfold c :
  needs_escape c = Ascii.eqb bsl c || (Ascii.eqb sq c || (Ascii.eqb dq c || false)).
Proof. reflexivity. Qed.

(** Escaping and then unescaping gives the text back. *)
Lemma unescape_reescape t : unescape (reescape t) = t.
Proof.
  unfold unescape, reescape.
  change "\'" with (two_chars bsl sq). change "'" with (chr sq).
  change (String bsl (chr dq)) with (two_chars bsl dq).
  change "\\" with (two_chars bsl bsl). change "\" with (chr bsl).
  rewrite (replace_escape_step needs_escape bsl_or_dq sq).
  - rewrite (replace_escape_step bsl_or_dq only_bsl dq).
    + by apply replace_escape_last.
    + discriminate.
    + reflexivity.
    + reflexivity.
    + reflexivity.
    + intros c Hc. unfold only_bsl, bsl_or_dq.
      apply not_eq_sym, Ascii.eqb_neq in Hc. rewrite Hc, (Ascii.eqb_sym c bsl).
      by destruct (Ascii.eqb bsl c).
  - discriminate.
  - reflexivity.
  - reflexivity.
  - reflexivity.
  - intros c Hc. rewrite needs_escape_unfold. unfold bsl_or_dq.
    apply not_eq_sym, Ascii.eqb_neq in Hc. rewrite Hc.
    by destruct (Ascii.eqb bsl c), (Ascii.eqb dq c).
Qed.

Lemma fully_escaped_is_reescaped n c :
  (String.length c ≤ n)%nat → fully_escaped c = true →
  ∃ t, c = reescape t.
Proof.
  revert c. induction n as [|n IH]; intros c Hlen Hc.
  - destruct c; [by exists EmptyString|simpl in Hlen; lia].
  - destruct c as [|x c]; [by exists EmptyString|].
    simpl in Hlen, Hc. destruct (Ascii.eqb x bsl) eqn:E.
    + apply Ascii.eqb_eq in E as ->. destruct c as [|d c]; [done|].
      apply andb_true_iff in Hc as [Hd Hc]. simpl in Hlen.
      destruct (IH c) as [t ->]; [lia|done|].
      exists (String d t). unfold reescape. cbn [escape_chars]. by rewrite Hd.
    + apply andb_true_iff in Hc as [Hx Hc]. apply negb_true_iff in Hx.
      destruct (IH c) as [t ->]; [lia|done|].
      exists (String x t). unfold reescape. cbn [escape_chars]. by rewrite Hx.
Qed.

End escapes.

(** C5, as stated, fails: the contents of the two literals of [l(Qit'sQ)]
    and [l(Qit\'sQ)], Q the double quote, are both captured, have no
    escape sequence other than an escaped quote and are unescaped to the
    same text, so that no re-escaping reproduces both; the re-escaping of
    quotes and backslashes reproduces the second one only. *)
Lemma unescape_identifies_literals :
  let plain := "l(" ++ chr dq ++ "it's" ++ chr dq ++ ")" in
  let escaped := "l(" ++ chr dq ++ "it\'s" ++ chr dq ++ ")" in
  map (group 2) (finditer l_function_pattern plain) = ["it's"]
  ∧ map (group 2) (finditer l_function_pattern escaped) = ["it\'s"]
  ∧ unescape "it's" = "it's"
  ∧ unescape "it\'s" = "it's"
  ∧ reescape (unescape "it's") ≠ "it's"
  ∧ ¬ ∃ f : string → string,
        f (unescape "it's") = "it's" ∧ f (unescape "it\'s") = "it\'s".
Proof.
  repeat (split; [by vm_compute|]).
  intros [f [H1 H2]].
  change (unescape "it\'s") with "it's" in H2.
  change (unescape "it's") with "it's" in H1.
  rewrite H1 in H2. discriminate.
Qed.

(** C5, amended.  For a literal content in which every backslash, single
    quote and double quote is part of an escape sequence for one of these
    three characters, unescaping and then putting a backslash before
    every backslash, single quote and double quote gives the content
    back. *)
Theorem unescape_round_trip (content : string) :
  fully_escaped content = true →
  reescape (unescape content) = content.
Proof.
  intros H.
  destruct (fully_escaped_is_reescaped (String.length content) content)
    as [t ->]; [lia|done|].
  by rewrite unescape_reescape.
Qed.

Lemma unescape_round_trip_witness :
  let content := "it\'s a \\ and a " ++ String bsl (chr dq) in
  map (group 2) (finditer l_function_pattern ("l(`" ++ content ++ "`)"))
  = [content]
  ∧ unescape content = "it's a \ and a " ++ chr dq
  ∧ reescape (unescape content) = content.
Proof.
  split; [by vm_compute|]. split; [by vm_compute|].
  apply (unescape_round_trip ("it\'s a \\ and a " ++ String bsl (chr dq))).
  vm_compute. reflexivity.
Defined.

(** ** The embedded-markup rule (C6) *)

Section embedded_markup.

(** The strings that one tagged-element match with inner text [text]
    adds to the result: none when the nested-tag check fails or the
    text is empty; else the non-empty arguments of the inner
    applications, unescaped, when there is one, and the text itself
    when there is none. *)
Definition recorded_by_match (text : string) : gset string :=
  if has_complex_tags text then ∅
  else if truthy text then
         match finditer template_literal_pattern text with
         | [] => {[ text ]}
         | inner =>
             list_to_set
               (unescape <$> filter (fun s => truthy s = true)
                                    (group 2 <$> inner))
         end
       else ∅.

Definition recorded_by_file (f : source_file) : gset string :=
  match f.2 with
  | None => ∅
  | Some content =>
      ⋃ (recorded_by_match ∘ group 2
           <$> finditer html_in_js_pattern (strip_js_comments content))
  end.

Lemma dom_record_at text loc (strings : occurrences) :
  dom (record_at text loc strings) = dom strings ∪ {[ text ]}.
Proof. unfold record_at. rewrite dom_insert_L. apply union_comm_L. Qed.

Lemma dom_fold_left_union {A} (f : occurrences → A → occurrences)
  (g : A → gset string) (l : list A) (acc : occurrences) :
  (∀ acc x, dom (f acc x) = dom acc ∪ g x) →
  dom (fold_left f l acc) = dom acc ∪ ⋃ (g <$> l).
Proof.
  intros Hf. revert acc. induction l as [|x l IH]; intros acc; simpl.
  - by rewrite union_empty_r_L.
  - by rewrite IH, Hf, union_assoc_L.
Qed.

Lemma dom_template_match loc (strings : occurrences) tm :
  dom (template_match loc strings tm)
  = dom strings ∪ (if truthy (group 2 tm) then {[ unescape (group 2 tm) ]}
                   else ∅).
Proof.
  unfold template_match. destruct (truthy (group 2 tm)).
  - apply dom_record_at.
  - by rewrite union_empty_r_L.
Qed.

Lemma union_list_template_matches (tms : list rmatch) :
  ⋃ ((fun tm => if truthy (group 2 tm)
                then ({[ unescape (group 2 tm) ]} : gset string) else ∅)
       <$> tms)
  = list_to_set (unescape <$> filter (fun s => truthy s = true)
                                     (group 2 <$> tms)).
Proof.
  induction tms as [|tm tms IH]; [done|].
  rewrite !fmap_cons, union_list_cons, IH, filter_cons.
  destruct (truthy (group 2 tm)) eqn:E.
  - rewrite decide_True by done. by rewrite fmap_cons, list_to_set_cons.
  - rewrite decide_False by congruence. by rewrite union_empty_l_L.
Qed.

Lemma dom_html_in_js_match path original (strings : occurrences) m :
  dom (html_in_js_match path original strings m)
  = dom strings ∪ recorded_by_match (group 2 m).
Proof.
  unfold html_in_js_match, recorded_by_match, search.
  destruct (has_complex_tags (group 2 m)); [by rewrite union_empty_r_L|].
  destruct (truthy (group 2 m)); [|by rewrite union_empty_r_L].
  destruct (finditer template_literal_pattern (group 2 m)) as [|tm tms] eqn:E.
  - simpl. apply dom_record_at.
  - cbn [head]. rewrite (dom_fold_left_union _ _ _ _ (dom_template_match _)).
    by rewrite union_list_template_matches.
Qed.

Lemma dom_extract_html_strings_file (strings : occurrences) f :
  dom (extract_html_strings_file strings f) = dom strings ∪ recorded_by_file f.
Proof.
  unfold extract_html_strings_file, recorded_by_file.
  destruct (f.2) as [content|]; [|by rewrite union_empty_r_L].
  rewrite (dom_fold_left_union _ (recorded_by_match ∘ group 2)); [done|].
  intros acc m. apply dom_html_in_js_match.
Qed.

End embedded_markup.

(** C6, as stated, fails: the inner text of the match below contains an
    application of the function-call rule, but it also contains a tag
    that is not an inline one, and then nothing is recorded for the
    match, the inner argument included. *)
Lemma nested_tag_check_drops_inner_application :
  let text := "<a href='#'>${l('Hello')}</a>" in
  let content := "box.innerHTML = `<p class='ds-i18n'>" ++ text ++ "</p>`;" in
  map (group 2) (finditer html_in_js_pattern (strip_js_comments content))
  = [text]
  ∧ map (group 2) (finditer template_literal_pattern text) = ["Hello"]
  ∧ has_complex_tags text = true
  ∧ extract_html_strings_from_js [("js/app.js", Some content)] = ∅.
Proof.
  repeat (split; [by vm_compute|]).
  apply map_eq. intros s. apply option_eq. intros v.
  rewrite lookup_empty. split; [|done].
  intros H. exfalso.
  assert (s ∈ dom (extract_html_strings_from_js
                     [("js/app.js",
                       Some ("box.innerHTML = `<p class='ds-i18n'>"
                             ++ "<a href='#'>${l('Hello')}</a>" ++ "</p>`;"))]))
    as Hs by (apply elem_of_dom; by eexists).
  revert Hs. unfold extract_html_strings_from_js. cbn [fold_left].
  rewrite dom_extract_html_strings_file, dom_empty_L, union_empty_l_L.
  assert (recorded_by_file
            ("js/app.js",
             Some ("box.innerHTML = `<p class='ds-i18n'>"
                   ++ "<a href='#'>${l('Hello')}</a>" ++ "</p>`;"))
          = ∅) as -> by (by vm_compute).
  apply not_elem_of_empty.
Qed.

(** C6, amended.  For a tagged-element match of the embedded-markup rule
    with inner text [text]: when the text has a [<] and a [>] and still
    has a [<] once the b, i, em, strong and span tags are taken out,
    nothing is recorded, whether or not the text contains applications of
    the function-call rule; otherwise, when the text is not empty, the
    non-empty arguments of its [${l(...)}] applications are recorded
    unescaped and the text itself is not, if there is such an
    application, and the text is recorded as it is if there is none.
    The strings extracted by the rule are those recorded for the matches
    of the readable script files. *)
Theorem embedded_markup_rule_records
  (path original : string) (strings : occurrences) (m : rmatch)
  (js_files : list source_file) :
  let text := group 2 m in
  let inner := finditer template_literal_pattern text in
  dom (html_in_js_match path original strings m)
  = dom strings
    ∪ (if has_complex_tags text then ∅
       else if truthy text then
              match inner with
              | [] => {[ text ]}
              | _ => list_to_set
                       (unescape <$> filter (fun s => truthy s = true)
                                            (group 2 <$> inner))
              end
            else ∅)
  ∧ dom (extract_html_strings_from_js js_files)
    = ⋃ (recorded_by_file <$> js_files).
Proof.
  split.
  - rewrite dom_html_in_js_match. unfold recorded_by_match.
    destruct (has_complex_tags (group 2 m)); [done|].
    destruct (truthy (group 2 m)); [|done].
    by destruct (finditer template_literal_pattern (group 2 m)).
  - unfold extract_html_strings_from_js.
    rewrite (dom_fold_left_union _ recorded_by_file).
    + by rewrite dom_empty_L, union_empty_l_L.
    + intros acc f. apply dom_extract_html_strings_file.
Qed.


(** * Further properties of the program *)

(** ** Occurrences: text, list and position *)

Section occurrences.

(** A position as the extractors compute it: lines and columns count
    from 1. *)
Definition one_based (loc : location) : Prop := 1 ≤ line loc ∧ 1 ≤ col loc.

(** Every entry has a text that is not empty and a list of occurrences
    that is not empty, all of them at one-based positions. *)
Definition well_formed (strings : occurrences) : Prop :=
  ∀ s locs, strings !! s = Some locs →
            s ≠ EmptyString ∧ locs ≠ [] ∧ Forall one_based locs.

Lemma count_nonneg c s : 0 ≤ count c s.
Proof. induction s as [|x s IH]; simpl; [done|]. destruct (Ascii.eqb x c); lia. Qed.

Lemma rfind_from_bound i c s :
  rfind_from i c s = -1
  ∨ (i ≤ rfind_from i c s < i + Z.of_nat (String.length s)).
Proof.
  revert i. induction s as [|x s IH]; intros i; [by left|].
  cbn [rfind_from String.length].
  destruct (IH (i + 1)) as [H|H].
  - rewrite H. simpl. destruct (Ascii.eqb x c); [right; lia|by left].
  - destruct (0 <=? rfind_from (i + 1) c s) eqn:E.
    + right. lia.
    + destruct (Ascii.eqb x c); [right; lia|by left].
Qed.

Lemma length_take n s : (String.length (take n s) ≤ n)%nat.
Proof.
  unfold take. revert n. induction s as [|x s IH]; intros [|n]; simpl; try lia.
  specialize (IH n). lia.
Qed.

Lemma location_of_one_based path content start :
  one_based (location_of path content start).
Proof.
  unfold one_based, location_of. cbn [line col]. split.
  - pose proof (count_nonneg nl (take start content)). lia.
  - pose proof (length_take start content) as Hlen.
    unfold rfind.
    destruct (rfind_from_bound 0 nl (take start content)) as [->|Hr]; lia.
Qed.

Lemma record_at_well_formed text loc strings :
  truthy text = true → one_based loc → well_formed strings →
  well_formed (record_at text loc strings).
Proof.
  intros Ht Hloc Hs s locs. unfold record_at.
  destruct (decide (text = s)) as [<-|Hne].
  - rewrite lookup_insert_eq. intros [= <-].
    split; [by apply truthy_ne|]. split.
    + by destruct (default [] (strings !! text)).
    + apply Forall_app. split; [|by constructor].
      destruct (strings !! text) as [old|] eqn:E; [|by constructor].
      by destruct (Hs text old E) as (_ & _ & ?).
  - rewrite lookup_insert_ne by done. apply Hs.
Qed.

Lemma well_formed_empty : well_formed ∅.
Proof. intros s locs H. by rewrite lookup_empty in H. Qed.

Lemma merge_occurrences_well_formed a b :
  well_formed a → well_formed b → well_formed (merge_occurrences a b).
Proof.
  intros Ha Hb s locs. unfold merge_occurrences. rewrite lookup_union_with.
  destruct (a !! s) as [la|] eqn:Ea, (b !! s) as [lb|] eqn:Eb; simpl;
    intros [= <-].
  - destruct (Ha s la Ea) as (? & ? & ?), (Hb s lb Eb) as (? & ? & ?).
    split; [done|]. split; [by destruct la|]. by apply Forall_app.
  - by apply Ha.
  - by apply Hb.
Qed.

Lemma extract_ds_i18n_well_formed files :
  well_formed (extract_ds_i18n_strings files).
Proof.
  apply (fold_left_preserves well_formed); [apply well_formed_empty|].
  intros strings [path [content|]] H;
    unfold extract_ds_i18n_file; cbn [fst snd]; [|done].
  apply (fold_left_preserves well_formed); [done|].
  intros acc m Hacc. unfold ds_i18n_match.
  destruct (has_complex_tags _); [done|].
  destruct (truthy _) eqn:E; [|done].
  apply record_at_well_formed; [done|apply location_of_one_based|done].
Qed.

Lemma extract_l_function_well_formed files :
  well_formed (extract_l_function_strings files).
Proof.
  apply (fold_left_preserves well_formed); [apply well_formed_empty|].
  intros strings [path [content|]] H;
    unfold extract_l_function_file; cbn [fst snd]; [|done].
  apply (fold_left_preserves well_formed); [done|].
  intros acc m Hacc. unfold l_function_match.
  destruct (truthy _) eqn:E; [|done].
  apply record_at_well_formed;
    [by apply unescape_truthy|apply location_of_one_based|done].
Qed.

Lemma extract_html_strings_well_formed files :
  well_formed (extract_html_strings_from_js files).
Proof.
  apply (fold_left_preserves well_formed); [apply well_formed_empty|].
  intros strings [path [content|]] H;
    unfold extract_html_strings_file; cbn [fst snd]; [|done].
  apply (fold_left_preserves well_formed); [done|].
  intros acc m Hacc. unfold html_in_js_match.
  destruct (has_complex_tags _); [done|].
  destruct (truthy _) eqn:E; [|done].
  assert (well_formed
            (fold_left (template_match (location_of path content (m_start m)))
               (finditer template_literal_pattern (group 2 m)) acc)) as H'.
  { apply (fold_left_preserves well_formed); [done|].
    intros acc' tm Hacc'. unfold template_match.
    destruct (truthy (group 2 tm)) eqn:E'; [|done].
    apply record_at_well_formed;
      [by apply unescape_truthy|apply location_of_one_based|done]. }
  destruct (search _ _); [done|].
  apply record_at_well_formed; [done|apply location_of_one_based|done].
Qed.

End occurrences.

(** Whatever the files hold, every string that the three rules extract
    is not empty and comes with at least one occurrence, and every
    occurrence has a line and a column of at least 1. *)
Theorem extracted_entries_well_formed (w : world) (s : string)
  (locs : list location) :
  all_used_strings_with_locations w !! s = Some locs →
  s ≠ EmptyString ∧ locs ≠ []
  ∧ Forall (fun loc => 1 ≤ line loc ∧ 1 ≤ col loc) locs.
Proof.
  revert s locs. fold (well_formed (all_used_strings_with_locations w)).
  unfold all_used_strings_with_locations.
  repeat apply merge_occurrences_well_formed.
  - apply extract_ds_i18n_well_formed.
  - apply extract_l_function_well_formed.
  - apply extract_html_strings_well_formed.
Qed.

Lemma extracted_entries_well_formed_witness :
  let w := js_only (String nl "  l('Save'); l('Save')") [] in
  all_used_strings_with_locations w !! "Save"
  = Some [Location "js/app.js" 2 3; Location "js/app.js" 2 14]
  ∧ "Save" ≠ EmptyString
  ∧ [Location "js/app.js" 2 3; Location "js/app.js" 2 14] ≠ []
  ∧ Forall (fun loc => 1 ≤ line loc ∧ 1 ≤ col loc)
           [Location "js/app.js" 2 3; Location "js/app.js" 2 14].
Proof.
  split; [by vm_compute|].
  apply (extracted_entries_well_formed
           (js_only (String nl "  l('Save'); l('Save')") []) "Save").
  by vm_compute.
Defined.

(** ** The filter splits the extracted strings *)

(** The excluded and the kept strings are disjoint and together are the
    extracted strings; a kept string keeps all its occurrences and an
    excluded one has none left. *)
Theorem filter_partitions_extracted (w : world) :
  excluded_strings w ∪ used_strings w = dom (all_used_strings_with_locations w)
  ∧ excluded_strings w ## used_strings w
  ∧ ∀ s, used_strings_with_locations w !! s
         = if should_exclude_string s then None
           else all_used_strings_with_locations w !! s.
Proof.
  split; [|split].
  - apply set_eq. intros s.
    rewrite elem_of_union, elem_of_excluded_strings, elem_of_used_strings.
    destruct (should_exclude_string s); split; try by intros [[_ ?]|[? _]].
    + intros ?. by left.
    + intros ?. by right.
  - apply elem_of_disjoint. intros s.
    rewrite elem_of_excluded_strings, elem_of_used_strings.
    intros [H1 _] [_ H2]. congruence.
  - intros s. apply option_eq. intros locs.
    unfold used_strings_with_locations. rewrite map_lookup_filter_Some. cbn [fst].
    rewrite elem_of_excluded_strings, elem_of_dom.
    destruct (should_exclude_string s); split.
    + intros [H Hn]. exfalso. apply Hn. split; [done|by eexists].
    + done.
    + by intros [? _].
    + intros H. split; [done|]. by intros [? _].
Qed.

(** ** The catalog loader *)

Section loader.

Implicit Types (fs : list lang_file) (lang s : string).

(** The keys that the loader keeps of a catalog object. *)
Definition catalog_keys (data : dict) : gset string :=
  list_to_set (dict_keys data) ∖ {[ EmptyString ]}.

Lemma load_lang_file_languages fs acc lang keys :
  (fold_left load_lang_file fs acc).2 !! lang = Some keys →
  acc.2 !! lang = Some keys
  ∨ ∃ data, (lang, Some (JObject data)) ∈ fs ∧ keys = catalog_keys data.
Proof.
  revert acc. induction fs as [|[stem doc] fs IH]; intros acc; simpl; [by left|].
  intros H. apply IH in H as [H|(data & Hin & ->)].
  - unfold load_lang_file in H. cbn [fst snd] in H.
    destruct doc as [[| | | | |data]|]; try by left.
    cbn [snd] in H. destruct (decide (stem = lang)) as [->|Hne].
    + rewrite lookup_insert_eq in H. injection H as <-.
      right. exists data. split; [apply list_elem_of_here|done].
    + rewrite lookup_insert_ne in H by done. by left.
  - right. exists data. split; [by apply list_elem_of_further|done].
Qed.

Lemma load_lang_file_dom_step acc (f : lang_file) lang :
  lang ∈ dom (load_lang_file acc f).2
  ↔ lang ∈ dom acc.2 ∨ (lang = f.1 ∧ ∃ data, f.2 = Some (JObject data)).
Proof.
  unfold load_lang_file.
  destruct (f.2) as [[| | | | |data]|];
    try (split; [by left|]; by intros [?|[_ [? ?]]]).
  cbn [snd]. rewrite dom_insert_L, elem_of_union, elem_of_singleton. split.
  - intros [->|?]; [right|by left]. split; [done|by exists data].
  - intros [?|[-> _]]; [by right|by left].
Qed.

Lemma load_lang_file_dom fs acc lang :
  lang ∈ dom (fold_left load_lang_file fs acc).2
  ↔ lang ∈ dom acc.2 ∨ ∃ data, (lang, Some (JObject data)) ∈ fs.
Proof.
  revert acc. induction fs as [|[stem doc] fs IH]; intros acc; simpl.
  - split; [by left|]. intros [?|[? H]]; [done|]. by apply elem_of_nil in H.
  - rewrite IH, load_lang_file_dom_step. cbn [fst snd]. split.
    + intros [[?|[-> [d ->]]]|[d H]].
      * by left.
      * right. exists d. apply list_elem_of_here.
      * right. exists d. by apply list_elem_of_further.
    + intros [?|[d H]]; [by left; left|].
      apply elem_of_cons in H as [H|H].
      * inversion H; subst. left; right. split; [done|by exists d].
      * right. by exists d.
Qed.

Lemma keys_by_language_unfold w :
  keys_by_language w = (fold_left load_lang_file (lang_files w) (∅, ∅)).2.
Proof.
  unfold keys_by_language, load_translation_keys.
  by destruct (lang_files w).
Qed.

Lemma elem_of_catalog_keys data s :
  s ∈ catalog_keys data ↔ s ∈ dict_keys data ∧ s ≠ EmptyString.
Proof.
  unfold catalog_keys.
  by rewrite elem_of_difference, elem_of_list_to_set, elem_of_singleton.
Qed.

Lemma keys_by_language_subseteq w lang keys :
  keys_by_language w !! lang = Some keys → keys ⊆ translation_keys w.
Proof.
  rewrite keys_by_language_unfold. intros H.
  apply load_lang_file_languages in H as [H|(data & Hin & ->)].
  - cbn [snd] in H. by rewrite lookup_empty in H.
  - intros s. rewrite elem_of_catalog_keys, elem_of_translation_keys.
    intros [? ?]. split; [done|]. by exists lang, data.
Qed.

End loader.

(** The languages are the catalog files that hold a JSON object: a file
    that cannot be read or parsed, or that holds another JSON value, is
    skipped and is not counted as a language. *)
Theorem loader_skips_unloadable (w : world) (lang : string) :
  lang ∈ dom (keys_by_language w)
  ↔ ∃ data, (lang, Some (JObject data)) ∈ lang_files w.
Proof.
  rewrite keys_by_language_unfold, load_lang_file_dom. cbn [snd].
  rewrite dom_empty_L. split; [|by right].
  intros [H|?]; [by apply not_elem_of_empty in H|done].
Qed.

(** The key set of a language is the key set of a loaded catalog of that
    name without the empty key; it never has the empty key and it lies
    within the union of all keys. *)
Theorem loader_language_keys (w : world) (lang : string) (keys : gset string) :
  keys_by_language w !! lang = Some keys →
  (EmptyString ∉ keys)
  ∧ keys ⊆ translation_keys w
  ∧ ∃ data, (lang, Some (JObject data)) ∈ lang_files w
            ∧ keys = list_to_set (dict_keys data) ∖ {[ EmptyString ]}.
Proof.
  intros H. pose proof (keys_by_language_subseteq w lang keys H) as Hsub.
  rewrite keys_by_language_unfold in H.
  apply load_lang_file_languages in H as [H|(data & Hin & ->)].
  { cbn [snd] in H. by rewrite lookup_empty in H. }
  split; [|split; [done|by exists data]].
  rewrite elem_of_catalog_keys. by intros [_ ?].
Qed.

Lemma loader_language_keys_witness :
  let w := js_only EmptyString
             [("es", Some (JObject [("Save", JString "Guardar");
                                    (EmptyString, JString EmptyString)]));
              ("fr", None); ("de", Some (JArray []))] in
  elements (dom (keys_by_language w)) = ["es"]
  ∧ (EmptyString ∉ ({[ "Save" ]} : gset string))
  ∧ ({[ "Save" ]} : gset string) ⊆ translation_keys w
  ∧ ∃ data, ("es", Some (JObject data)) ∈ lang_files w
            ∧ ({[ "Save" ]} : gset string)
              = list_to_set (dict_keys data) ∖ {[ EmptyString ]}.
Proof.
  split; [by vm_compute|].
  apply (loader_language_keys
           (js_only EmptyString
              [("es", Some (JObject [("Save", JString "Guardar");
                                     (EmptyString, JString EmptyString)]));
               ("fr", None); ("de", Some (JArray []))]) "es").
  by vm_compute.
Defined.

(** ** The comparator at the edges *)

(** When no catalog file holds a JSON object (no file at all, or only
    files that cannot be read or parsed) there is no key and no language:
    every kept string is missing and nothing is unused. *)
Theorem no_catalog_all_missing (w : world) :
  (∀ stem data, (stem, Some (JObject data)) ∉ lang_files w) →
  translation_keys w = ∅
  ∧ keys_by_language w = ∅
  ∧ missing_translations w = used_strings w
  ∧ unused_translations w = ∅.
Proof.
  intros Hnone.
  assert (translation_keys w = ∅) as Hkeys.
  { apply set_eq. intros s. rewrite elem_of_translation_keys. split.
    - intros [_ (stem & data & Hin & _)]. by destruct (Hnone stem data).
    - intros H. by apply not_elem_of_empty in H. }
  split; [done|]. split; [|split].
  - apply map_eq. intros lang. rewrite lookup_empty.
    apply not_elem_of_dom. rewrite keys_by_language_unfold, load_lang_file_dom.
    cbn [snd]. rewrite dom_empty_L.
    intros [H|[data H]]; [by apply not_elem_of_empty in H|].
    by destruct (Hnone lang data).
  - unfold missing_translations, translation_keys_for_comparison.
    rewrite Hkeys. apply set_eq. intros s.
    rewrite !elem_of_difference. split; [by intros [? _]|].
    intros Hu. split; [done|]. intros [He _]. by apply not_elem_of_empty in He.
  - unfold unused_translations, translation_keys_for_comparison.
    rewrite Hkeys. apply set_eq. intros s.
    rewrite !elem_of_difference.
    split; [|intros He; by apply not_elem_of_empty in He].
    intros [[[He _] _] _]. by apply not_elem_of_empty in He.
Qed.

Lemma no_catalog_all_missing_witness :
  let w := js_only "l('Save'); l('#skip')"
             [("es", None); ("de", Some (JArray [JString "Save"]))] in
  translation_keys w = ∅
  ∧ keys_by_language w = ∅
  ∧ missing_translations w = used_strings w
  ∧ unused_translations w = ∅.
Proof.
  apply (no_catalog_all_missing
           (js_only "l('Save'); l('#skip')"
              [("es", None); ("de", Some (JArray [JString "Save"]))])).
  intros stem data H. simpl in H.
  apply elem_of_cons in H as [H|H]; [discriminate|].
  apply elem_of_cons in H as [H|H]; [discriminate|].
  by apply elem_of_nil in H.
Defined.

(** Lines 494-502: what the text report prints below a missing string. *)
Inductive missing_from : Type :=
| AllLanguages (n : nat)                          (* ALL languages (n) *)
| Languages (codes : list string)                 (* at most five codes *)
| LanguagesAndMore (codes : list string) (more : nat).

Definition missing_from_detail (w : world) (s : string) : option missing_from :=
  match missing_by_language w !! s with
  | None => None
  | Some missing_langs =>
      Some (if (length missing_langs =? size (keys_by_language w))%nat
            then AllLanguages (length missing_langs)
            else if (length missing_langs <=? 5)%nat
                 then Languages missing_langs
                 else LanguagesAndMore (firstn 5 missing_langs)
                                       (length missing_langs - 5))
  end.

Lemma length_sorted (X : gset string) : length (sorted X) = size X.
Proof. by rewrite sorted_perm. Qed.

Lemma missing_in_no_language w s lang keys :
  s ∈ missing_translations w →
  keys_by_language_filtered w !! lang = Some keys → s ∉ keys.
Proof.
  unfold missing_translations, translation_keys_for_comparison,
    keys_by_language_filtered.
  rewrite elem_of_difference, lookup_fmap. intros [_ Hs] Hk.
  destruct (keys_by_language w !! lang) as [ks|] eqn:E; [|done].
  injection Hk as <-. rewrite elem_of_difference. intros [Hin Hsp].
  apply Hs. rewrite elem_of_difference. split; [|done].
  by apply (keys_by_language_subseteq w lang ks).
Qed.

(** A missing string is absent from the union of all keys, so it is
    absent from every language: the languages listed for it are always
    all the loaded languages, in sorted order, and the text report always
    prints the line for all languages. *)
Theorem missing_from_every_language (w : world) (s : string) :
  s ∈ missing_translations w →
  missing_by_language w !! s = Some (sorted (dom (keys_by_language w)))
  ∧ missing_from_detail w s = Some (AllLanguages (size (keys_by_language w))).
Proof.
  intros Hs.
  assert (missing_by_language w !! s = Some (sorted (dom (keys_by_language w))))
    as Hall.
  { unfold missing_by_language.
    rewrite lookup_set_to_map by (intros y y' _ _ H; exact H).
    exists s. split; [done|]. f_equal. f_equal.
    rewrite map_filter_id.
    - unfold keys_by_language_filtered. by rewrite dom_fmap_L.
    - intros lang keys Hk. cbn [snd].
      by apply (missing_in_no_language w s lang keys). }
  split; [done|].
  unfold missing_from_detail. rewrite Hall, length_sorted, size_dom.
  by rewrite Nat.eqb_refl.
Qed.

Lemma missing_from_every_language_witness :
  let w := js_only "l('Save'); l('Cancel')"
             [es_catalog ["Save"]; ("de", Some (JObject [])); ("fr", None)] in
  elements (missing_translations w) = ["Cancel"]
  ∧ elements (dom (keys_by_language w)) = ["es"; "de"]
  ∧ missing_by_language w !! "Cancel" = Some (sorted (dom (keys_by_language w)))
  ∧ missing_from_detail w "Cancel" = Some (AllLanguages (size (keys_by_language w))).
Proof.
  split; [by vm_compute|]. split; [by vm_compute|].
  apply (missing_from_every_language
           (js_only "l('Save'); l('Cancel')"
              [es_catalog ["Save"]; ("de", Some (JObject [])); ("fr", None)])
           "Cancel").
  compute_done.
Defined.

(** ** Files are processed independently *)

Section by_file.

Implicit Types (f : source_file) (files : list source_file) (s : string).

Lemma dom_ds_i18n_match path content (strings : occurrences) m :
  dom (ds_i18n_match path content strings m)
  = dom strings ∪ dom (ds_i18n_match path content ∅ m).
Proof.
  unfold ds_i18n_match.
  destruct (has_complex_tags _); [by rewrite dom_empty_L, union_empty_r_L|].
  destruct (truthy _); [|by rewrite dom_empty_L, union_empty_r_L].
  by rewrite !dom_record_at, dom_empty_L, union_empty_l_L.
Qed.

Lemma dom_l_function_match path content (strings : occurrences) m :
  dom (l_function_match path content strings m)
  = dom strings ∪ dom (l_function_match path content ∅ m).
Proof.
  unfold l_function_match.
  destruct (truthy _); [|by rewrite dom_empty_L, union_empty_r_L].
  by rewrite !dom_record_at, dom_empty_L, union_empty_l_L.
Qed.

Lemma dom_extract_ds_i18n_file (strings : occurrences) f :
  dom (extract_ds_i18n_file strings f)
  = dom strings ∪ dom (extract_ds_i18n_file ∅ f).
Proof.
  unfold extract_ds_i18n_file.
  destruct (f.2) as [content|]; [|by rewrite dom_empty_L, union_empty_r_L].
  rewrite !(dom_fold_left_union _ _ _ _ (dom_ds_i18n_match _ _)).
  by rewrite dom_empty_L, union_empty_l_L.
Qed.

Lemma dom_extract_l_function_file (strings : occurrences) f :
  dom (extract_l_function_file strings f)
  = dom strings ∪ dom (extract_l_function_file ∅ f).
Proof.
  unfold extract_l_function_file.
  destruct (f.2) as [content|]; [|by rewrite dom_empty_L, union_empty_r_L].
  rewrite !(dom_fold_left_union _ _ _ _ (dom_l_function_match _ _)).
  by rewrite dom_empty_L, union_empty_l_L.
Qed.

Lemma dom_extract_html_strings_file_empty (strings : occurrences) f :
  dom (extract_html_strings_file strings f)
  = dom strings ∪ dom (extract_html_strings_file ∅ f).
Proof.
  rewrite !dom_extract_html_strings_file.
  by rewrite dom_empty_L, union_empty_l_L.
Qed.

(** A fold that only ever adds keys collects the keys of each file. *)
Lemma elem_of_dom_fold_files
  (step : occurrences → source_file → occurrences) files s :
  (∀ acc f, dom (step acc f) = dom acc ∪ dom (step ∅ f)) →
  s ∈ dom (fold_left step files ∅) ↔ ∃ f, f ∈ files ∧ s ∈ dom (step ∅ f).
Proof.
  intros Hstep.
  rewrite (dom_fold_left_union step (fun f => dom (step ∅ f)) files ∅ Hstep).
  rewrite dom_empty_L, union_empty_l_L, elem_of_union_list. split.
  - intros (X & HX & Hs). apply list_elem_of_fmap in HX as (f & -> & Hf).
    by exists f.
  - intros (f & Hf & Hs). exists (dom (step ∅ f)). split; [|done].
    apply list_elem_of_fmap. by exists f.
Qed.

Lemma dom_merge_occurrences (a b : occurrences) :
  dom (merge_occurrences a b) = dom a ∪ dom b.
Proof.
  apply set_eq. intros s. unfold merge_occurrences.
  rewrite elem_of_union, !elem_of_dom, lookup_union_with.
  destruct (a !! s), (b !! s); simpl; rewrite ?is_Some_alt; tauto.
Qed.

Lemma elem_of_dom_all_used w s :
  s ∈ dom (all_used_strings_with_locations w)
  ↔ (∃ f, f ∈ find_html_files w ∧ s ∈ dom (extract_ds_i18n_file ∅ f))
    ∨ (∃ f, f ∈ find_js_files w ∧ s ∈ dom (extract_l_function_file ∅ f))
    ∨ (∃ f, f ∈ find_js_files w ∧ s ∈ dom (extract_html_strings_file ∅ f)).
Proof.
  unfold all_used_strings_with_locations.
  rewrite !dom_merge_occurrences, !elem_of_union.
  unfold extract_ds_i18n_strings, extract_l_function_strings,
    extract_html_strings_from_js.
  rewrite (elem_of_dom_fold_files _ _ _ dom_extract_ds_i18n_file).
  rewrite (elem_of_dom_fold_files _ _ _ dom_extract_l_function_file).
  rewrite (elem_of_dom_fold_files _ _ _ dom_extract_html_strings_file_empty).
  tauto.
Qed.

End by_file.

(** A string is extracted from the source files exactly when one of the
    three rules extracts it from one of the files taken alone; a file
    that cannot be read gives nothing. *)
Theorem extraction_is_per_file (w : world) (s : string) :
  (s ∈ dom (all_used_strings_with_locations w)
   ↔ (∃ f, f ∈ find_html_files w ∧ s ∈ dom (extract_ds_i18n_strings [f]))
     ∨ (∃ f, f ∈ find_js_files w ∧ s ∈ dom (extract_l_function_strings [f]))
     ∨ (∃ f, f ∈ find_js_files w
             ∧ s ∈ dom (extract_html_strings_from_js [f])))
  ∧ ∀ path, extract_ds_i18n_strings [(path, None)] = ∅
            ∧ extract_l_function_strings [(path, None)] = ∅
            ∧ extract_html_strings_from_js [(path, None)] = ∅.
Proof.
  split; [apply elem_of_dom_all_used|done].
Qed.

(** The order in which the files are listed does not change the report:
    the kept strings, the keys, the missing and the unused set are the
    same for two listings of the same source and catalog files. *)
Theorem report_independent_of_listing_order (w w' : world) :
  find_html_files w ≡ₚ find_html_files w' →
  find_js_files w ≡ₚ find_js_files w' →
  lang_files w ≡ₚ lang_files w' →
  used_strings w = used_strings w'
  ∧ translation_keys w = translation_keys w'
  ∧ missing_translations w = missing_translations w'
  ∧ unused_translations w = unused_translations w'.
Proof.
  intros Hhtml Hjs Hlang.
  assert (used_strings w = used_strings w') as Hused.
  { apply set_eq. intros s. rewrite !elem_of_used_strings, !elem_of_dom_all_used.
    by setoid_rewrite Hhtml; setoid_rewrite Hjs. }
  assert (translation_keys w = translation_keys w') as Hkeys.
  { apply set_eq. intros s. rewrite !elem_of_translation_keys.
    by setoid_rewrite Hlang. }
  unfold missing_translations, unused_translations,
    translation_keys_for_comparison.
  by rewrite Hused, Hkeys.
Qed.

Lemma report_independent_of_listing_order_witness :
  let a : source_file := ("js/a.js", Some "l('Save')") in
  let b : source_file := ("js/b.js", Some "l('Cancel'); l('Save')") in
  let es := es_catalog ["Save"; "Old"] in
  let de := ("de", Some (JObject [("Cancel", JString "Abbrechen")])) in
  let w := World [] [] [a; b] [es; de] WriteOk in
  let w' := World [] [] [b; a] [de; es] WriteOk in
  all_used_strings_with_locations w !! "Save"
  = Some [Location "js/a.js" 1 1; Location "js/b.js" 1 14]
  ∧ all_used_strings_with_locations w' !! "Save"
    = Some [Location "js/b.js" 1 14; Location "js/a.js" 1 1]
  ∧ used_strings w = used_strings w'
  ∧ translation_keys w = translation_keys w'
  ∧ missing_translations w = missing_translations w'
  ∧ unused_translations w = unused_translations w'.
Proof.
  split; [vm_compute; reflexivity|]. split; [vm_compute; reflexivity|].
  apply report_independent_of_listing_order.
  - reflexivity.
  - apply perm_swap.
  - apply perm_swap.
Defined.

(** ** What a run leaves on the file system *)

Section file_system.

Implicit Types (fs : list lang_file) (stem : string) (doc : json).


Lemma elem_of_write_file stem doc fs (f : lang_file) :
  f ∈ write_file stem doc fs → f = (stem, Some doc) ∨ f ∈ fs.
Proof.
  induction fs as [|[s old] fs IH]; simpl.
  - intros H. apply list_elem_of_singleton in H. by left.
  - destruct (String.eqb s stem) eqn:E.
    + apply String.eqb_eq in E as ->. intros H.
      apply elem_of_cons in H as [->|H]; [by left|].
      right. by apply list_elem_of_further.
    + intros H. apply elem_of_cons in H as [->|H].
      * right. apply list_elem_of_here.
      * destruct (IH H) as [?|?]; [by left|].
        right. by apply list_elem_of_further.
Qed.

Lemma write_file_elem_of stem doc fs : (stem, Some doc) ∈ write_file stem doc fs.
Proof.
  induction fs as [|[s old] fs IH]; simpl.
  - apply list_elem_of_here.
  - destruct (String.eqb s stem) eqn:E.
    + apply String.eqb_eq in E as ->. apply list_elem_of_here.
    + by apply list_elem_of_further.
Qed.

End file_system.





(** After an export that succeeds no string is missing: a comparison run
    over the file system that the export leaves finds every kept string
    among the keys of the base catalog, and every key that it reports as
    unused is a key of a catalog that was there before the export. *)
Theorem nothing_missing_after_export (argv : list string) (w w' : world) :
  EXPORT_BASE argv = true →
  main argv w = Returns (0, w') →
  missing_translations w' = ∅
  ∧ ∀ s, s ∈ unused_translations w' →
         ∃ stem data, (stem, Some (JObject data)) ∈ lang_files w
                      ∧ s ∈ dict_keys data.
Proof.
  intros Hflag. unfold main. rewrite Hflag.
  destruct (export_to_base_json (used_strings w) w) as [[[] w1]|] eqn:E;
    try done.
  intros [= <-]. apply export_returns_inv in E as (existing & _ & _ & ->).
  set (new_data := build_new_data (used_strings w) existing).
  assert (∀ s, s ∈ dict_keys new_data ↔ s ∈ key_order (used_strings w)) as Hkeys.
  { intros s. unfold new_data. rewrite build_new_data_kept.
    unfold dict_keys. rewrite map_map. cbn [fst]. by rewrite map_id. }
  split.
  - apply set_eq. intros s. split; [|intros H; by apply not_elem_of_empty in H].
    unfold missing_translations, translation_keys_for_comparison.
    rewrite !elem_of_difference, used_strings_write_base.
    intros [Hs Hn]. exfalso. apply Hn. split.
    + apply elem_of_translation_keys. split.
      * intros ->. by apply (used_strings_not_empty w).
      * exists "base", new_data. split; [apply write_file_elem_of|].
        apply Hkeys, elem_of_key_order. by right; left.
    + intros Hsp. by apply (used_strings_not_special w s).
  - intros s. unfold unused_translations, translation_keys_for_comparison.
    rewrite !elem_of_difference, used_strings_write_base.
    intros [[[Hs Hsp] Hu] _].
    apply elem_of_translation_keys in Hs as [Hne (stem & data & Hin & Hk)].
    cbn [write_base lang_files] in Hin.
    apply elem_of_write_file in Hin as [[= -> <-]|Hin]; [|by exists stem, data].
    exfalso. apply Hkeys, elem_of_key_order in Hk as [?|[?|?]]; done.
Qed.

Lemma nothing_missing_after_export_witness :
  let w := World [] [] [("js/app.js", Some "l('Save'); l('Cancel')")]
                 [es_catalog ["Save"; "Old"]] WriteOk in
  elements (missing_translations w) = ["Cancel"]
  ∧ ∃ w', main export_argv w = Returns (0, w')
          ∧ missing_translations w' = ∅
          ∧ elements (unused_translations w') = ["Old"].
Proof.
  intros w. split; [by vm_compute|].
  destruct (main export_argv w) as [[status w']|] eqn:E; [|by vm_compute in E].
  assert (status = 0) as -> by (by vm_compute in E; injection E as <- _).
  exists w'. split; [done|].
  destruct (nothing_missing_after_export export_argv w w' eq_refl E) as [Hm _].
  split; [exact Hm|].
  vm_compute in E. injection E as <-. by vm_compute.
Defined.

(** ** The counts that the exporter reports *)

(** Lines 141-144: the keys of [new_data] that the exporter counts as
    added. *)
Definition added_keys (existing_data new_data : dict) : list string :=
  filter (fun key => (key ∉ dict_keys existing_data) ∧ key ≠ EmptyString)
         (dict_keys new_data).

Definition added_count (existing_data new_data : dict) : nat :=
  length (added_keys existing_data new_data).

Lemma dict_keys_build_new_data (w : world) (existing : dict) :
  dict_keys (build_new_data (used_strings w) existing)
  = key_order (used_strings w).
Proof.
  rewrite build_new_data_kept. unfold dict_keys.
  rewrite map_map. cbn [fst]. by rewrite map_id.
Qed.

(** The object that an export writes has one key for each kept string,
    one for each reserved key and the empty key.  The keys counted as
    added are the kept strings and the reserved keys that the existing
    catalog does not define; each of them is written with the empty
    string as its value. *)
Theorem exporter_counts (w : world) (existing : dict) :
  let new_data := build_new_data (used_strings w) existing in
  length new_data = (size (used_strings w) + size SPECIAL_KEYS + 1)%nat
  ∧ (∀ k, k ∈ added_keys existing new_data
          ↔ (k ∈ used_strings w ∨ k ∈ SPECIAL_KEYS)
            ∧ (k ∉ dict_keys existing))
  ∧ (∀ k, k ∈ added_keys existing new_data →
          dict_get k new_data = Some (JString EmptyString))
  ∧ (added_count existing new_data
     ≤ size (used_strings w) + size SPECIAL_KEYS)%nat.
Proof.
  intros new_data.
  assert (dict_keys new_data = key_order (used_strings w)) as Hkeys
    by apply dict_keys_build_new_data.
  assert (∀ k, k ∈ added_keys existing new_data
               ↔ (k ∈ used_strings w ∨ k ∈ SPECIAL_KEYS)
                 ∧ (k ∉ dict_keys existing)) as Hadded.
  { intros k. unfold added_keys.
    rewrite list_elem_of_filter, Hkeys, elem_of_key_order. split.
    - intros [[Hn Hne] [Hs|[HU|He]]].
      + exact (conj (or_intror Hs) Hn).
      + exact (conj (or_introl HU) Hn).
      + destruct (Hne He).
    - intros [[HU|Hs] Hn].
      + split; [|exact (or_intror (or_introl HU))]. split; [exact Hn|].
        intros ->. exact (used_strings_not_empty w HU).
      + split; [|exact (or_introl Hs)]. split; [exact Hn|].
        intros ->. apply special_keys_excluded in Hs. discriminate Hs. }
  split; [|split; [done|split]].
  - unfold new_data. rewrite build_new_data_kept, length_map.
    unfold key_order. rewrite !length_app, !length_sorted. cbn [length]. lia.
  - intros k Hk. apply Hadded in Hk as [Hin Hn].
    unfold new_data. rewrite build_new_data_kept.
    rewrite (dict_get_entries existing), decide_True.
    + apply dict_get_None in Hn. unfold get_or_empty. by rewrite Hn.
    + apply elem_of_key_order.
      destruct Hin as [HU|Hs];
        [exact (or_intror (or_introl HU))|exact (or_introl Hs)].
  - unfold added_count, added_keys. rewrite Hkeys. unfold key_order.
    rewrite !filter_app, !length_app.
    assert (filter (fun key => (key ∉ dict_keys existing) ∧ key ≠ EmptyString)
                   [EmptyString] = []) as ->.
    { rewrite filter_cons, decide_False; [reflexivity|].
      intros [_ Hne]. exact (Hne eq_refl). }
    pose proof (length_filter
                  (fun key => (key ∉ dict_keys existing) ∧ key ≠ EmptyString)
                  (sorted SPECIAL_KEYS)) as H1.
    pose proof (length_filter
                  (fun key => (key ∉ dict_keys existing) ∧ key ≠ EmptyString)
                  (sorted (used_strings w))) as H2.
    rewrite !length_sorted in H1, H2. cbn [length]. lia.
Qed.

(** ** Only the keys of a catalog matter *)

(** A catalog with every value replaced by the empty string. *)
Definition blank_values (doc : json) : json :=
  match doc with
  | JObject members => JObject (map (fun kv => (kv.1, JString EmptyString)) members)
  | other => other
  end.

Definition blank_catalogs (w : world) : world :=
  World (root_html w) (templates_html w) (js_files w)
        (map (fun f : lang_file => (f.1, blank_values <$> f.2)) (lang_files w))
        (base_write w).

(** The comparison looks at the keys of the catalogs and never at their
    values: with every translation emptied the kept strings, the keys,
    the missing set and the unused set are the same, so a key whose
    translation is empty counts as translated. *)
Theorem comparison_ignores_values (w : world) :
  used_strings (blank_catalogs w) = used_strings w
  ∧ translation_keys (blank_catalogs w) = translation_keys w
  ∧ missing_translations (blank_catalogs w) = missing_translations w
  ∧ unused_translations (blank_catalogs w) = unused_translations w.
Proof.
  assert (translation_keys (blank_catalogs w) = translation_keys w) as Hkeys.
  { apply set_eq. intros s. rewrite !elem_of_translation_keys.
    cbn [blank_catalogs lang_files]. split.
    - intros [Hne (stem & data & Hin & Hs)]. split; [done|].
      apply list_elem_of_fmap in Hin as ([stem0 doc] & Heq & Hin).
      cbn [fst snd] in Heq. injection Heq as -> Hdoc.
      destruct doc as [[| | | | |data0]|]; try done.
      injection Hdoc as ->. exists stem0, data0. split; [done|].
      unfold dict_keys in *. by rewrite map_map in Hs.
    - intros [Hne (stem & data & Hin & Hs)]. split; [done|].
      exists stem, (map (fun kv : string * json => (kv.1, JString EmptyString)) data).
      split.
      + apply list_elem_of_fmap. by exists (stem, Some (JObject data)).
      + unfold dict_keys in *. by rewrite map_map. }
  split; [reflexivity|]. split; [done|].
  unfold missing_translations, unused_translations,
    translation_keys_for_comparison.
  rewrite Hkeys. split; reflexivity.
Qed.

(** ** Literals without escapes *)

(** [a] directly followed by [b] somewhere in [s]. *)
Fixpoint has_pair (a b : ascii) (s : string) : bool :=
  match s with
  | EmptyString => false
  | String x t => (Ascii.eqb x a && starts_with b t) || has_pair a b t
  end.

Lemma replace_absent a b new s :
  has_pair a b s = false → replace (two_chars a b) new s = s.
Proof.
  induction s as [|x t IH]; [done|].
  cbn [has_pair]. intros H. apply orb_false_iff in H as [Hhere Hrest].
  unfold replace in *. cbn [replace_from].
  by rewrite prefix_two_chars, Hhere, IH.
Qed.

(** A literal content with no backslash directly before a single quote,
    a double quote or a backslash is recorded as it is written: the other
    escape sequences, such as backslash-n, are not interpreted. *)
Theorem unescape_leaves_other_escapes (text : string) :
  has_pair bsl sq text = false →
  has_pair bsl dq text = false →
  has_pair bsl bsl text = false →
  unescape text = text.
Proof.
  intros Hsq Hdq Hbsl. unfold unescape.
  change "\'" with (two_chars bsl sq).
  change (String bsl (chr dq)) with (two_chars bsl dq).
  change "\\" with (two_chars bsl bsl).
  by rewrite (replace_absent bsl sq), (replace_absent bsl dq),
    (replace_absent bsl bsl).
Qed.

Lemma unescape_leaves_other_escapes_witness :
  map (group 2) (finditer l_function_pattern "l('Line one\nLine two: it`s')")
  = ["Line one\nLine two: it`s"]
  ∧ unescape "Line one\nLine two: it`s" = "Line one\nLine two: it`s".
Proof.
  split; [by vm_compute|].
  apply unescape_leaves_other_escapes; reflexivity.
Defined.

(** ** What the exclusion patterns accept *)

Section exclusion.

(** The loop of a greedy repetition, as [run] has it. *)
Definition star_loop (r1 : regex) (k : mstate → option mstate)
  : nat → mstate → option mstate :=
  fix loop (n : nat) (st : mstate) {struct n} : option mstate :=
    match n with
    | O => k st
    | S n' =>
        orelse
          (run r1 st (fun st' =>
             if (pos (cur st) <? pos (cur st'))%nat
             then loop n' st' else None))
          (k st)
    end.

Lemma run_star r1 st k :
  run (Star r1) st k = star_loop r1 k (S (String.length (rest (cur st)))) st.
Proof. reflexivity. Qed.

Lemma run_cat r1 r2 st k :
  run (Cat r1 r2) st k = run r1 st (fun st1 => run r2 st1 k).
Proof. reflexivity. Qed.

Lemma run_cls p st k :
  run (Cls p) st k
  = match step (cur st) with
    | Some (x, c') => if p x then k (MState c' (groups st)) else None
    | None => None
    end.
Proof. reflexivity. Qed.

Lemma run_lit c st k :
  run (Lit c) st k
  = match step (cur st) with
    | Some (x, c') => if Ascii.eqb x c then k (MState c' (groups st)) else None
    | None => None
    end.
Proof. reflexivity. Qed.

Lemma run_bol st k :
  run Bol st k = if (pos (cur st) =? 0)%nat then k st else None.
Proof. reflexivity. Qed.

Lemma run_eol ml st k :
  run (Eol ml) st k = if at_eol ml (cur st) then k st else None.
Proof. reflexivity. Qed.

(** The text after the longest run of characters of a class. *)
Fixpoint drop_class (p : ascii → bool) (s : string) : string :=
  match s with
  | EmptyString => EmptyString
  | String x t => if p x then drop_class p t else s
  end.

Fixpoint skip_class (p : ascii → bool) (pos : nat) (prev : option ascii)
  (s : string) : cursor :=
  match s with
  | EmptyString => Cursor pos prev EmptyString
  | String x t => if p x then skip_class p (S pos) (Some x) t
                  else Cursor pos prev s
  end.

Lemma rest_skip_class p pos prev s :
  rest (skip_class p pos prev s) = drop_class p s.
Proof.
  revert pos prev. induction s as [|x t IH]; intros pos prev; [done|].
  cbn [skip_class drop_class]. by destruct (p x).
Qed.

Lemma orelse_None_r {A} (a : option A) : orelse a None = a.
Proof. by destruct a. Qed.

(** A greedy repetition of a class, followed by something that cannot
    start with a character of the class, takes the longest run. *)
Lemma star_loop_class p k :
  (∀ st x t, rest (cur st) = String x t → p x = true → k st = None) →
  ∀ s n i pv gs,
    (String.length s < n)%nat →
    star_loop (Cls p) k n (MState (Cursor i pv s) gs)
    = k (MState (skip_class p i pv s) gs).
Proof.
  intros Hk. induction s as [|x t IH]; intros n i pv gs Hn;
    (destruct n as [|n]; [cbn [String.length] in Hn; lia|]);
    cbn [star_loop run step cur rest skip_class pos groups].
  - done.
  - destruct (p x) eqn:E; [|done].
    assert ((i <? S i)%nat = true) as -> by (apply Nat.ltb_lt; lia).
    rewrite IH by (cbn [String.length] in Hn; lia).
    rewrite (Hk (MState (Cursor i pv (String x t)) gs) x t eq_refl E).
    apply orelse_None_r.
Qed.

(** [$] without MULTILINE: at the end, or before a final newline. *)
Definition line_end (s : string) : bool :=
  match s with
  | EmptyString => true
  | String x t =>
      Ascii.eqb x nl && match t with EmptyString => true | _ => false end
  end.

(** One or more characters of the class [p], then the end of the line. *)
Definition class_run_to_end (p : ascii → bool) (s : string) : bool :=
  match s with
  | EmptyString => false
  | String x t => p x && line_end (drop_class p t)
  end.

Definition accepts (r : regex) (st : mstate) : bool :=
  match run r st Some with Some _ => true | None => false end.

Lemma accepts_re_match r s :
  bool_decide (is_Some (re_match r s)) = accepts r (MState (start_of s) []).
Proof.
  unfold re_match, match_at, accepts.
  destruct (run r (MState (start_of s) []) Some).
  - apply bool_decide_eq_true_2. by eexists.
  - apply bool_decide_eq_false_2. by intros [? ?].
Qed.

Lemma eol_after_class p :
  p nl = false →
  ∀ st x t, rest (cur st) = String x t → p x = true →
            run (Eol false) st Some = None.
Proof.
  intros Hnl st x t Hrest Hx. rewrite run_eol. unfold at_eol. rewrite Hrest.
  destruct (Ascii.eqb x nl) eqn:E; [|done].
  apply Ascii.eqb_eq in E as ->. congruence.
Qed.

Lemma accepts_class_run_to_end p i pv s gs :
  p nl = false →
  accepts (Cat (Plus (Cls p)) (Eol false)) (MState (Cursor i pv s) gs)
  = class_run_to_end p s.
Proof.
  intros Hnl. unfold accepts, Plus. rewrite !run_cat, run_cls.
  destruct s as [|x t]; [done|].
  cbn [step cur rest groups pos class_run_to_end].
  destruct (p x); [|done].
  rewrite run_star. cbn [cur rest].
  rewrite (star_loop_class p _ (eol_after_class p Hnl)) by lia.
  rewrite run_eol. cbn [cur]. unfold at_eol. rewrite rest_skip_class.
  unfold line_end. cbn [andb].
  by destruct (drop_class p t) as [|y [|z r]]; [|destruct (Ascii.eqb y nl)..].
Qed.

(** A character of a selector name: [\w] or a hyphen. *)
Definition ident (c : ascii) : bool := is_word c || Ascii.eqb c "-".

(** [^\.[\w-]+$] and [^#[\w-]+$] *)
Definition selector (mark : ascii) (s : string) : bool :=
  match s with
  | EmptyString => false
  | String x t => Ascii.eqb x mark && class_run_to_end ident t
  end.

(** [^[\w-]+\.[\w-]+$] *)
Definition compound_selector (s : string) : bool :=
  match s with
  | EmptyString => false
  | String x t =>
      ident x
      && match drop_class ident t with
         | EmptyString => false
         | String d r => Ascii.eqb d "." && class_run_to_end ident r
         end
  end.

(** [^\\x[0-9a-fA-F]+$] *)
Definition hex_escape (s : string) : bool :=
  match s with
  | String a (String b t) =>
      Ascii.eqb a bsl && Ascii.eqb b "x" && class_run_to_end is_hex t
  | _ => false
  end.

Lemma accepts_selector (mark : ascii) s :
  accepts (seq [Bol; Lit mark; Plus (Cls ident); Eol false])
          (MState (start_of s) [])
  = selector mark s.
Proof.
  unfold accepts, start_of. cbn [seq].
  rewrite run_cat, run_bol. cbn [cur pos Nat.eqb]. rewrite run_cat, run_lit.
  destruct s as [|x t]; [done|]. cbn [step rest cur pos groups selector].
  destruct (Ascii.eqb x mark); [|done]. cbn [andb].
  by apply (accepts_class_run_to_end ident).
Qed.

Lemma lit_after_ident st y r :
  rest (cur st) = String y r → ident y = true →
  run (Cat (Lit ".") (Cat (Plus (Cls ident)) (Eol false))) st Some = None.
Proof.
  intros Hrest Hy. rewrite run_cat, run_lit. unfold step. rewrite Hrest.
  destruct (Ascii.eqb y ".") eqn:E; [|done].
  apply Ascii.eqb_eq in E as ->. discriminate Hy.
Qed.

Lemma accepts_compound_selector s :
  accepts css_compound_pattern (MState (start_of s) []) = compound_selector s.
Proof.
  unfold accepts, start_of, css_compound_pattern. cbn [seq]. fold ident.
  rewrite run_cat, run_bol. cbn [cur pos Nat.eqb].
  unfold Plus at 1. rewrite !run_cat, run_cls.
  destruct s as [|x t]; [done|]. cbn [step rest cur pos groups compound_selector].
  destruct (ident x); [|done]. cbn [andb].
  rewrite run_star. cbn [cur rest].
  rewrite (star_loop_class ident _ lit_after_ident) by lia.
  rewrite run_cat, run_lit. cbn [cur groups]. unfold step.
  rewrite rest_skip_class.
  destruct (drop_class ident t) as [|d r]; [done|].
  destruct (Ascii.eqb d "."); [|done]. cbn [andb].
  by apply (accepts_class_run_to_end ident).
Qed.

Lemma accepts_hex_escape s :
  accepts hex_escape_pattern (MState (start_of s) []) = hex_escape s.
Proof.
  unfold accepts, start_of, hex_escape_pattern. cbn [seq].
  rewrite run_cat, run_bol. cbn [cur pos Nat.eqb]. rewrite run_cat, run_lit.
  destruct s as [|a [|b t]]; cbn [step rest cur pos groups hex_escape].
  - done.
  - destruct (Ascii.eqb a bsl); [|done]. by rewrite run_cat, run_lit.
  - destruct (Ascii.eqb a bsl); [|done]. rewrite run_cat, run_lit.
    cbn [step rest cur pos groups].
    destruct (Ascii.eqb b "x"); [|done]. cbn [andb].
    by apply (accepts_class_run_to_end is_hex).
Qed.

Lemma run_lits l st k :
  run (lits l) st k
  = match skip_str l (cur st) with
    | Some c => k (MState c (groups st))
    | None => None
    end.
Proof.
  revert st. induction l as [|c l IH]; intros [cu gs]; [done|].
  assert (run (Cat (Lit c) (lits l)) (MState cu gs) k
          = match skip_str (String c l) cu with
            | Some c' => k (MState c' gs)
            | None => None
            end) as Hcat.
  { rewrite run_cat, run_lit. cbn [skip_str cur groups].
    destruct (step cu) as [[y c']|]; [|done].
    rewrite (Ascii.eqb_sym c y). destruct (Ascii.eqb y c); [|done].
    by rewrite IH. }
  destruct l as [|c2 l]; [|exact Hcat].
  cbn [lits]. rewrite run_lit. cbn [skip_str cur groups].
  destruct (step cu) as [[y c']|]; [|done].
  rewrite (Ascii.eqb_sym c y). by destruct (Ascii.eqb y c).
Qed.

Lemma skip_str_prefix l cu :
  match skip_str l cu with Some _ => true | None => false end
  = String.prefix l (rest cu).
Proof.
  revert cu. induction l as [|c l IH]; intros [ps pr s].
  - by destruct s.
  - destruct s as [|y t]; [done|].
    cbn [skip_str step rest String.prefix].
    destruct (ascii_dec c y) as [->|Hne].
    + rewrite Ascii.eqb_refl. apply IH.
    + by apply Ascii.eqb_neq in Hne as ->.
Qed.

Lemma accepts_svg_list s :
  accepts svg_list_pattern (MState (start_of s) [])
  = String.prefix "path,rect,circle" s.
Proof.
  unfold accepts, start_of, svg_list_pattern. cbn [seq].
  rewrite run_cat, run_bol. cbn [cur pos Nat.eqb]. rewrite run_lits.
  cbn [cur groups].
  pose proof (skip_str_prefix "path,rect,circle" (Cursor 0 None s)) as H.
  cbn [rest] in H. rewrite <- H. by destruct (skip_str _ _).
Qed.

End exclusion.

(** The filter without the patterns: a string is excluded exactly when it
    is a dot or a hash followed by one or more word characters or
    hyphens, or two such runs joined by a dot, or a backslash and an x
    followed by one or more hexadecimal digits, each of them up to the
    end of the string or to a newline that ends it; or when it begins
    with the list of SVG elements. *)
Theorem exclusion_filter_accepts (s : string) :
  should_exclude_string s
  = selector "." s || selector "#" s || compound_selector s
    || String.prefix "path,rect,circle" s || hex_escape s.
Proof.
  unfold should_exclude_string, EXCLUDE_PATTERNS. cbn [existsb].
  rewrite !accepts_re_match.
  rewrite (accepts_selector "." s
           : accepts css_class_pattern (MState (start_of s) []) = _).
  rewrite (accepts_selector "#" s
           : accepts css_id_pattern (MState (start_of s) []) = _).
  rewrite accepts_compound_selector, accepts_svg_list, accepts_hex_escape.
  rewrite orb_false_r. by rewrite !orb_assoc.
Qed.

(** ** The counts of the JSON report *)

(** Lines 458-466: the summary of the JSON report. *)
Record summary : Type := Summary {
  total_strings_used : nat;
  total_translation_keys : nat;
  total_languages : nat;
  missing_count : nat;
  unused_count : nat;
  excluded_count : nat;
  whitelisted_count : nat
}.

Definition json_summary (w : world) : summary :=
  {| total_strings_used := size (used_strings w);
     total_translation_keys := size (translation_keys_for_comparison w);
     total_languages := size (keys_by_language w);
     missing_count := size (missing_translations w);
     unused_count := size (unused_translations w);
     excluded_count := size (excluded_strings w);
     whitelisted_count := size WHITELIST_UNUSED |}.

Section counts.

Implicit Types (U K W : gset string).

Lemma size_split U K : size U = (size (U ∖ K) + size (U ∩ K))%nat.
Proof.
  rewrite <- size_union.
  - f_equal. apply set_eq. intros x.
    rewrite elem_of_union, elem_of_difference, elem_of_intersection.
    destruct (decide (x ∈ K)); tauto.
  - apply elem_of_disjoint. intros x.
    rewrite elem_of_difference, elem_of_intersection. tauto.
Qed.

Lemma size_unused_bound U K W :
  (size ((K ∖ U) ∖ W) + size (U ∩ K) ≤ size K)%nat.
Proof.
  rewrite <- size_union.
  - apply subseteq_size. intros x.
    rewrite elem_of_union, !elem_of_difference, elem_of_intersection.
    tauto.
  - apply elem_of_disjoint. intros x.
    rewrite !elem_of_difference, elem_of_intersection. tauto.
Qed.

Lemma size_extracted_split (w : world) :
  size (dom (all_used_strings_with_locations w))
  = (size (excluded_strings w) + size (used_strings w))%nat.
Proof.
  rewrite <- size_union.
  - f_equal. apply set_eq. intros s.
    rewrite elem_of_union, elem_of_excluded_strings, elem_of_used_strings.
    destruct (should_exclude_string s); intuition congruence.
  - apply elem_of_disjoint. intros s.
    rewrite elem_of_excluded_strings, elem_of_used_strings.
    intros [H1 _] [_ H2]. congruence.
Qed.

End counts.

(** The counts of the summary fit together: the excluded and the used
    strings add up to the distinct extracted strings; the missing strings
    are at most the used strings and the unused keys at most the keys;
    and the used strings that are not missing are keys that are not
    unused, so that used + unused is at most keys + missing. *)
Theorem summary_counts_consistent (w : world) :
  let c := json_summary w in
  (excluded_count c + total_strings_used c
   = size (dom (all_used_strings_with_locations w)))%nat
  ∧ (missing_count c ≤ total_strings_used c)%nat
  ∧ (unused_count c ≤ total_translation_keys c)%nat
  ∧ (total_strings_used c + unused_count c
     ≤ total_translation_keys c + missing_count c)%nat
  ∧ total_languages c = length (sorted (dom (keys_by_language w))).
Proof.
  cbn [json_summary total_strings_used total_translation_keys total_languages
       missing_count unused_count excluded_count].
  unfold missing_translations, unused_translations.
  generalize (translation_keys_for_comparison w) as K.
  generalize WHITELIST_UNUSED as W. intros W K.
  pose proof (size_split (used_strings w) K) as Hsplit.
  pose proof (size_unused_bound (used_strings w) K W) as Hbound.
  pose proof (size_extracted_split w) as Hext.
  split; [lia|]. split; [lia|]. split; [lia|]. split; [lia|].
  by rewrite length_sorted, size_dom.
Qed.

(** ** What being in sync means *)




(** ** Exporting without a usable base catalog *)



(** ** Unescaping decodes an escaped text *)

(** The content of a literal written for a text by putting a backslash
    before every backslash, single quote and double quote of the text is
    unescaped to that text, whatever the text: the three replacements,
    done one after the other, never take a backslash for part of the
    wrong escape sequence. *)
Theorem unescape_decodes_escaped_text (text : string) :
  unescape (escape_chars needs_escape text) = text.
Proof. apply unescape_reescape. Qed.
